(** * A shallow embedding of the Earley parser and tokenizer of
      [earley-parser.js], and the properties of its specification.

    The first part models the code: JavaScript values and the few
    built-ins the code relies on, regular expressions (as an interface,
    with one small concrete engine), Earley states, [equalArrays], the
    data of the [Tokenizer] and [Grammar] classes, [sameJSON],
    [setOption], [addRule], [tokenize] and [parse].  The notions used in
    statements and a few sample grammars follow; the theorems come last.

    Conventions of the model:
    - a loop that need not terminate takes a fuel argument, and running
      out of fuel is the outcome [OutOfFuel], distinct from every
      outcome of the code;
    - the callbacks (formatters, [expressionBuilder], [comparator]) are
      pure functions; regular expressions carry no flags, so that
      [exec] is a function of the source and the subject;
    - [this.rules] is a plain object: [hasOwnProperty] is a lookup in
      the map of its own properties, while [this.rules[name]] also
      finds what [Object.prototype] defines;
    - debugging output is not modelled. *)

From Stdlib Require Import ZArith Lia Bool Ascii String List.
From stdpp Require Import base option list strings gmap pretty.
Import ListNotations.

Set Warnings "-register-all".

Local Open Scope string_scope.
Local Open Scope list_scope.
Local Open Scope nat_scope.

(** ** JavaScript values

    The values that occur as tokens, as entries of [got] and in parse
    trees: primitives, arrays, and the one object the parser creates
    itself, [expressionBuilderFlag].  Numbers are the integers, which
    stand for the code's numbers as far as those hold integers exactly
    and print them with all their digits, the negative zero and [NaN],
    the two numbers that [===] and printing treat apart; plain objects
    with keys are not represented. *)

Inductive value : Type :=
  | VUndef
  | VNull
  | VBool (b : bool)
  | VNum (n : Z)
  | VNegZero
  | VNaN
  | VStr (s : string)
  | VArr (l : list value)
  | VFlag.

(** Truthiness, as used by [if ( next )] and [if ( !result )]. *)
Definition truthy (v : value) : bool :=
  match v with
  | VUndef | VNull => false
  | VBool b => b
  | VNum n => negb (n =? 0)%Z
  | VNegZero | VNaN => false
  | VStr s => negb (String.eqb s "")
  | VArr _ | VFlag => true
  end.

Fixpoint join (sep : string) (l : list string) : string :=
  match l with
  | [] => ""
  | [x] => x
  | x :: r => x +:+ sep +:+ join sep r
  end.

(** [String(v)]: what [RegExp.prototype.test] does to its argument.
    Inside [Array.prototype.join], [null] and [undefined] print as the
    empty string. *)
Fixpoint to_string (v : value) : string :=
  match v with
  | VUndef => "undefined"
  | VNull => "null"
  | VBool true => "true"
  | VBool false => "false"
  | VNum n => pretty n
  | VNegZero => "0"
  | VNaN => "NaN"
  | VStr s => s
  | VArr l =>
      join "," (map (fun x => match x with
                              | VUndef | VNull => ""
                              | _ => to_string x
                              end) l)
  | VFlag => "[object Object]"
  end.

(** [v == expressionBuilderFlag]: the flag is an object, so the loose
    comparison is identity against objects, and goes through
    [String(flag)] against a string. *)
Definition loose_eq_flag (v : value) : bool :=
  match v with
  | VFlag => true
  | VStr s => String.eqb s "[object Object]"
  | _ => false
  end.

(** ** Outcomes

    A call returns, throws, or (in the model only) runs out of fuel. *)

Inductive error : Type :=
  | TypeError
  | UnknownNonterminal (name : string)
  | MaxIterations.

Inductive outcome (A : Type) : Type :=
  | Ok (a : A)
  | Throw (e : error)
  | OutOfFuel.
Arguments Ok {A} a.
Arguments Throw {A} e.
Arguments OutOfFuel {A}.

#[global] Instance outcome_bind : MBind outcome := fun A B k m =>
  match m with
  | Ok a => k a
  | Throw e => Throw e
  | OutOfFuel => OutOfFuel
  end.

(** [forEach] with a body that may throw, threading the mutated state. *)
Fixpoint forEachM {A S} (body : S -> A -> outcome S) (l : list A) (s : S)
  : outcome S :=
  match l with
  | [] => Ok s
  | x :: r => s' ← body s x; forEachM body r s'
  end.

(** ** Regular expressions

    A [RegExp] object without flags is determined by its [source].  The
    engine itself is a built-in of the platform; the development is
    parametric in it.  [regexp_exec src s] is [new RegExp(src).exec(s)]:
    [None] for [null], otherwise the matched text [match[0]] and the
    capture groups [match[1]], [match[2]], ... *)

Record rmatch := { m0 : string; mgroups : list (option string) }.

Class RegExpEngine := { regexp_exec : string -> string -> option rmatch }.

Definition regexp_test `{RegExpEngine} (src : string) (v : value) : bool :=
  match regexp_exec src (to_string v) with
  | Some _ => true
  | None => false
  end.

(** *** A concrete engine for a fragment of the pattern language

    Used to evaluate the model on concrete inputs.  It implements the
    ECMAScript semantics (no flags) of patterns built from literal
    characters, the assertions [^] and [$], alternation [|] and the
    non-capturing group [(?:...)]: backtracking, alternatives tried left
    to right, the leftmost start position wins.  Any other pattern
    syntax is outside the fragment and matches nothing here. *)

Module Fragment.

Inductive re : Type :=
  | REmpty
  | RChar (c : ascii)
  | RBol
  | REol
  | RSeq (a b : re)
  | RAlt (a b : re).

Definition close (d : option re) (a : re) : re :=
  match d with
  | None => a
  | Some d0 => RAlt d0 a
  end.

Definition special (c : ascii) : bool :=
  existsb (Ascii.eqb c)
    (list_ascii_of_string "()[]{}*+?.\/").

(** One pass over the pattern text: [d] is the disjunction read so far
    at the current nesting level, [a] the current alternative, [stk]
    the enclosing levels. *)
Fixpoint parse_re (s : list ascii) (d : option re) (a : re)
    (stk : list (option re * re)) : option re :=
  match s with
  | [] => match stk with
          | [] => Some (close d a)
          | _ :: _ => None
          end
  | "("%char :: "?"%char :: ":"%char :: r =>
      parse_re r None REmpty ((d, a) :: stk)
  | ")"%char :: r =>
      match stk with
      | [] => None
      | (d', a') :: stk' => parse_re r d' (RSeq a' (close d a)) stk'
      end
  | "|"%char :: r => parse_re r (Some (close d a)) REmpty stk
  | "^"%char :: r => parse_re r d (RSeq a RBol) stk
  | "$"%char :: r => parse_re r d (RSeq a REol) stk
  | c :: r =>
      if special c then None else parse_re r d (RSeq a (RChar c)) stk
  end.

(** Backtracking matcher in continuation-passing style: [i] is the
    index of the first character of [s] in the whole subject; the
    continuation receives the index and text after the match and
    returns the end of the overall match. *)
Fixpoint mt (r : re) (i : nat) (s : list ascii)
    (k : nat -> list ascii -> option nat) : option nat :=
  match r with
  | REmpty => k i s
  | RChar c =>
      match s with
      | c' :: s' => if Ascii.eqb c c' then k (S i) s' else None
      | [] => None
      end
  | RBol => if Nat.eqb i 0 then k i s else None
  | REol => match s with [] => k i s | _ :: _ => None end
  | RSeq a b => mt a i s (fun j t => mt b j t k)
  | RAlt a b =>
      match mt a i s k with
      | Some e => Some e
      | None => mt b i s k
      end
  end.

(** Try the start positions [i], [i+1], ... in turn. *)
Fixpoint search (r : re) (i : nat) (s : list ascii) : option (nat * nat) :=
  match mt r i s (fun j _ => Some j) with
  | Some e => Some (i, e)
  | None =>
      match s with
      | [] => None
      | _ :: s' => search r (S i) s'
      end
  end.

Definition exec (src subject : string) : option rmatch :=
  match parse_re (list_ascii_of_string src) None REmpty [] with
  | None => None
  | Some r =>
      match search r 0 (list_ascii_of_string subject) with
      | None => None
      | Some (b, e) =>
          Some {| m0 := String.substring b (e - b) subject; mgroups := [] |}
      end
  end.

Definition engine : RegExpEngine := {| regexp_exec := exec |}.

End Fragment.

(** ** Earley states

    An entry of a right-hand side is a string (the name of a nonterminal)
    or a regular expression (a terminal), given by its source. *)

Inductive sym : Type :=
  | NT (name : string)
  | T (source : string).

Record state := {
  lhs : string;
  rhs : list sym;
  pos : nat;
  ori : nat;
  got : list value
}.

Definition getNext (s : state) : option sym :=
  if pos s <? length (rhs s) then rhs s !! pos s else None.

Definition copyState (s : state) : state :=
  {| lhs := lhs s; rhs := rhs s; pos := pos s; ori := ori s; got := got s |}.

(** [copy = copyState( s ); copy.pos++; copy.got.push( v )]: what the
    completer and the scanner do to the state they advance. *)
Definition advance (s : state) (v : value) : state :=
  let copy := copyState s in
  {| lhs := lhs copy; rhs := rhs copy; pos := S (pos copy); ori := ori copy;
     got := got copy ++ [v] |}.

(** [String(re)] for a regular expression without flags. *)
Definition regexp_to_string (source : string) : string :=
  "/" +:+ source +:+ "/".

(** [entry1 != entry2] as [equalArrays] evaluates it: the [instanceof]
    branch for a regular expression on the left, JavaScript's loose
    inequality otherwise (a string against a regular expression compares
    the string with [String(re)]). *)
Definition entry_differs (entry1 entry2 : sym) : bool :=
  match entry1 with
  | T source1 =>
      match entry2 with
      | T source2 => negb (String.eqb source1 source2)
      | NT _ => true
      end
  | NT name1 =>
      match entry2 with
      | NT name2 => negb (String.eqb name1 name2)
      | T source2 => negb (String.eqb name1 (regexp_to_string source2))
      end
  end.

Fixpoint equalEntries (array1 array2 : list sym) : bool :=
  match array1, array2 with
  | entry1 :: r1, entry2 :: r2 =>
      if entry_differs entry1 entry2 then false else equalEntries r1 r2
  | _, _ => true
  end.

Definition equalArrays (array1 array2 : list sym) : bool :=
  if negb (length array1 =? length array2) then false
  else equalEntries array1 array2.

(** [getNext( s ) == state.lhs]: [null] is not loosely equal to a
    string; a regular expression is compared through [String(re)]. *)
Definition next_is (next : option sym) (name : string) : bool :=
  match next with
  | None => false
  | Some (NT n) => String.eqb n name
  | Some (T source) => String.eqb (regexp_to_string source) name
  end.

(** ** The tokenizer's data

    A formatter is a function of the matched text and the match object,
    or anything else, which [tokenize] turns into a template string. *)

Inductive formatter : Type :=
  | FFun (f : string -> rmatch -> value)
  | FTemplate (text : string).

Record tokenType := { regexp : string; tt_formatter : formatter }.

Record Tokenizer := { tokenTypes : list tokenType }.

Definition new_Tokenizer : Tokenizer := {| tokenTypes := [] |}.

(** The default value of [addType]'s second parameter, [x => x]. *)
Definition identity_formatter : formatter := FFun (fun x _ => VStr x).

Definition addType (t : Tokenizer) (source : string) (f : formatter)
  : Tokenizer :=
  let source' :=
    match source with
    | String "^" _ => source
    | _ => "^(?:" +:+ source +:+ ")"
    end in
  {| tokenTypes := tokenTypes t ++ [ {| regexp := source'; tt_formatter := f |} ] |}.

(** ** Options *)

Record options := {
  addCategories : bool;
  collapseBranches : bool;
  showDebuggingOutput : bool;
  expressionBuilder : option (value -> value);
  tokenizer : option Tokenizer;
  comparator : value -> value -> bool;
  maxIterations : Z
}.

(** One property of an options object: a key of the table above and its
    value. *)
Inductive setting : Type :=
  | Set_addCategories (b : bool)
  | Set_collapseBranches (b : bool)
  | Set_showDebuggingOutput (b : bool)
  | Set_expressionBuilder (f : option (value -> value))
  | Set_tokenizer (t : option Tokenizer)
  | Set_comparator (c : value -> value -> bool)
  | Set_maxIterations (n : Z).

(** [target[name] = value]. *)
Definition assign1 (target : options) (p : setting) : options :=
  match p with
  | Set_addCategories b =>
      {| addCategories := b; collapseBranches := collapseBranches target;
         showDebuggingOutput := showDebuggingOutput target;
         expressionBuilder := expressionBuilder target;
         tokenizer := tokenizer target; comparator := comparator target;
         maxIterations := maxIterations target |}
  | Set_collapseBranches b =>
      {| addCategories := addCategories target; collapseBranches := b;
         showDebuggingOutput := showDebuggingOutput target;
         expressionBuilder := expressionBuilder target;
         tokenizer := tokenizer target; comparator := comparator target;
         maxIterations := maxIterations target |}
  | Set_showDebuggingOutput b =>
      {| addCategories := addCategories target;
         collapseBranches := collapseBranches target;
         showDebuggingOutput := b;
         expressionBuilder := expressionBuilder target;
         tokenizer := tokenizer target; comparator := comparator target;
         maxIterations := maxIterations target |}
  | Set_expressionBuilder f =>
      {| addCategories := addCategories target;
         collapseBranches := collapseBranches target;
         showDebuggingOutput := showDebuggingOutput target;
         expressionBuilder := f;
         tokenizer := tokenizer target; comparator := comparator target;
         maxIterations := maxIterations target |}
  | Set_tokenizer t =>
      {| addCategories := addCategories target;
         collapseBranches := collapseBranches target;
         showDebuggingOutput := showDebuggingOutput target;
         expressionBuilder := expressionBuilder target;
         tokenizer := t; comparator := comparator target;
         maxIterations := maxIterations target |}
  | Set_comparator c =>
      {| addCategories := addCategories target;
         collapseBranches := collapseBranches target;
         showDebuggingOutput := showDebuggingOutput target;
         expressionBuilder := expressionBuilder target;
         tokenizer := tokenizer target; comparator := c;
         maxIterations := maxIterations target |}
  | Set_maxIterations n =>
      {| addCategories := addCategories target;
         collapseBranches := collapseBranches target;
         showDebuggingOutput := showDebuggingOutput target;
         expressionBuilder := expressionBuilder target;
         tokenizer := tokenizer target; comparator := comparator target;
         maxIterations := n |}
  end.

(** [Object.assign( target, source )]: the properties of [source] are
    written into [target], in order; the result is the (mutated)
    target. *)
Definition Object_assign (target : options) (source : list setting)
  : options :=
  fold_left assign1 source target.

(** ** [sameJSON], the default comparator

    On the values of this model: arrays are equal when they have the same
    indices and equal entries, the flag object has no keys, and
    primitives are compared with [===], for which the two zeros are
    equal and [NaN] differs from itself. *)
Fixpoint sameJSON (x y : value) : bool :=
  match x, y with
  | VArr xs, VArr ys =>
      (fix every (xs ys : list value) : bool :=
         match xs, ys with
         | [], [] => true
         | a :: r, b :: r' => sameJSON a b && every r r'
         | _, _ => false
         end) xs ys
  | VFlag, VFlag => true
  | VUndef, VUndef => true
  | VNull, VNull => true
  | VBool a, VBool b => Bool.eqb a b
  | VNum a, VNum b => (a =? b)%Z
  | VNum a, VNegZero | VNegZero, VNum a => (a =? 0)%Z
  | VNegZero, VNegZero => true
  | VStr a, VStr b => String.eqb a b
  | _, _ => false
  end.

(** ** The grammar

    A right-hand side is a JavaScript array, shared by reference between
    the caller of [addRule] and the grammar.  The arrays live in a store,
    addressed by position; [rules] maps a category name to the list of
    references of its right-hand sides. *)

Abbreviation loc := nat (only parsing).

Record Grammar := {
  START : string;
  rules : gmap string (list loc);
  defaults : options
}.

Definition new_Grammar (start : string) : Grammar :=
  {| START := start;
     rules := ∅;
     defaults :=
       {| addCategories := true;
          collapseBranches := false;
          showDebuggingOutput := false;
          expressionBuilder := None;
          tokenizer := None;
          comparator := sameJSON;
          maxIterations := (-1)%Z |} |}.

Definition setOption (g : Grammar) (p : setting) : Grammar :=
  {| START := START g; rules := rules g;
     defaults := assign1 (defaults g) p |}.

(** One argument of [addRule] after the category name: a regular
    expression, an array (by reference), or anything else, which is
    turned into a string and split at spaces. *)
Inductive sequence : Type :=
  | SeqRegExp (source : string)
  | SeqArray (l : loc)
  | SeqOther (text : string).

(** [text.split( ' ' )]. *)
Fixpoint split_from (cur text : string) : list string :=
  match text with
  | EmptyString => [cur]
  | String " " r => cur :: split_from "" r
  | String c r => split_from (cur +:+ String c "") r
  end.

Definition split_space (text : string) : list string := split_from "" text.

(** [new RegExp( `^${entry.source}$` )] for a regular expression; other
    entries are left alone. *)
Definition anchor (entry : sym) : sym :=
  match entry with
  | T source => T ("^" +:+ source +:+ "$")
  | NT name => NT name
  end.

Abbreviation store := (list (list sym)) (only parsing).

(** The names that every plain object inherits from [Object.prototype]:
    for them [this.rules[name]] is a function (the prototype itself for
    [__proto__]) when [this.rules] has no property of its own with that
    name; the value is truthy and has no [push] method. *)
Definition inherited (name : string) : bool :=
  bool_decide
    (name ∈ [ "constructor"; "hasOwnProperty"; "isPrototypeOf";
              "propertyIsEnumerable"; "toLocaleString"; "toString";
              "valueOf"; "__proto__"; "__defineGetter__";
              "__defineSetter__"; "__lookupGetter__";
              "__lookupSetter__" ]).

(** A [forEach] whose body mutates a state and may throw: the state is
    kept as it is at the throw. *)
Fixpoint forEachS {A S} (body : S -> A -> S * outcome unit) (l : list A)
    (s : S) : S * outcome unit :=
  match l with
  | [] => (s, Ok tt)
  | x :: r =>
      match body s x with
      | (s', Ok _) => forEachS body r s'
      | (s', e) => (s', e)
      end
  end.

(** The body of [sequences.forEach] in [addRule]: a regular expression or
    a string becomes a new array; an array is used as it is.  Then the
    regular expressions of that array are overwritten in place.  Last,
    [this.rules[categoryName]] is read: an array of the grammar's own
    gets the reference pushed; where nothing is found, a new array is
    stored first; what [Object.prototype] defines is truthy, so that
    nothing is stored and the call of [push] throws a [TypeError].  The
    result is the state after the body and how it ended. *)
Definition addRule1 (categoryName : string) (hg : store * Grammar)
    (sequence : sequence) : (store * Grammar) * outcome unit :=
  let '(h, g) := hg in
  let '(l, h) :=
    match sequence with
    | SeqRegExp source => (length h, h ++ [[T source]])
    | SeqArray l => (l, h)
    | SeqOther text => (length h, h ++ [NT <$> split_space text])
    end in
  let h := alter (fmap anchor) l h in
  let pushed (old : list loc) :=
    ((h, {| START := START g;
            rules := <[categoryName := old ++ [l]]> (rules g);
            defaults := defaults g |}), Ok tt) in
  match rules g !! categoryName with
  | Some old => pushed old
  | None =>
      if inherited categoryName then ((h, g), Throw TypeError)
      else pushed []
  end.

(** [addRule]: the state (the store and the grammar) after the call,
    and how the call ended. *)
Definition addRule (h : store) (g : Grammar) (categoryName : string)
    (sequences : list sequence) : (store * Grammar) * outcome unit :=
  forEachS (addRule1 categoryName) sequences (h, g).

(** [this.rules[next]] with the references resolved: the right-hand
    sides of a category, or [None] when [hasOwnProperty] fails. *)
Definition rules_of (h : store) (g : Grammar) (name : string)
  : option (list (list sym)) :=
  match rules g !! name with
  | None => None
  | Some ls => Some ((fun l => default [] (h !! l)) <$> ls)
  end.

(** ** [Tokenizer.tokenize] *)

Fixpoint substr (k : nat) (s : string) : string :=
  match k, s with
  | 0, _ => s
  | S k', String _ r => substr k' r
  | S _, EmptyString => EmptyString
  end.

Definition is_digit (c : ascii) : bool :=
  (48 <=? nat_of_ascii c) && (nat_of_ascii c <=? 57).

Fixpoint span_digits (s : list ascii) : list ascii * list ascii :=
  match s with
  | c :: r =>
      if is_digit c
      then let '(ds, rest) := span_digits r in (c :: ds, rest)
      else ([], s)
  | [] => ([], [])
  end.

(** [/\%([0-9]+)/.exec( format )]: the text before the leftmost [%]
    that is followed by a digit, the digits, and the text after them. *)
Fixpoint find_placeholder (s : list ascii)
  : option (list ascii * list ascii * list ascii) :=
  match s with
  | [] => None
  | c :: r =>
      let skip :=
        match find_placeholder r with
        | Some (before, ds, after) => Some (c :: before, ds, after)
        | None => None
        end in
      if Ascii.eqb c "%" then
        match span_digits r with
        | ([], _) => skip
        | (ds, after) => Some ([], ds, after)
        end
      else skip
  end.

Definition digits_value (ds : list ascii) : nat :=
  fold_left (fun n c => 10 * n + (nat_of_ascii c - 48)) ds 0.

(** [match[key]] for a key made of digits: an element of the match array
    when the key is a canonical index, [undefined] otherwise; then the
    conversion to a string done by [+]. *)
Definition match_text (m : rmatch) (ds : list ascii) : string :=
  let canonical :=
    match ds with
    | "0"%char :: _ :: _ => false
    | _ => true
    end in
  let entry :=
    if canonical then
      match digits_value ds with
      | 0 => Some (m0 m)
      | S k => mjoin (mgroups m !! k)
      end
    else None in
  default "undefined" entry.

(** The [while ( next = ... )] loop of the template case. *)
Fixpoint expand_template (fuel : nat) (m : rmatch) (token : string)
    (format : list ascii) : outcome string :=
  match find_placeholder format with
  | None => Ok (token +:+ string_of_list_ascii format)
  | Some (before, ds, after) =>
      match fuel with
      | 0 => OutOfFuel
      | S fuel' =>
          expand_template fuel' m
            (token +:+ string_of_list_ascii before +:+ match_text m ds) after
      end
  end.

Section Tokenize.
Context `{RegExpEngine}.

(** The [for ( let type of this.tokenTypes )] loop up to its [break]:
    the first type whose pattern matches, with the match. *)
Fixpoint first_match (types : list tokenType) (input : string)
  : option (tokenType * rmatch) :=
  match types with
  | [] => None
  | type :: r =>
      match regexp_exec (regexp type) input with
      | Some m => Some (type, m)
      | None => first_match r input
      end
  end.

(** One pass of the [while] loop, up to the test of the length. *)
Definition tokenize_pass (t : Tokenizer) (input : string)
    (result : list value) : outcome (string * list value) :=
  match first_match (tokenTypes t) input with
  | None => Ok (input, result)
  | Some (type, m) =>
      let input' := substr (String.length (m0 m)) input in
      match tt_formatter type with
      | FFun f =>
          let next := f (m0 m) m in
          Ok (input', if truthy next then result ++ [next] else result)
      | FTemplate text =>
          let format := list_ascii_of_string text in
          token ← expand_template (length format) m "" format;
          Ok (input', result ++ [VStr token])
      end
  end.

(** The [while ( input.length > 0 )] loop.  [Ok None] is the value
    [null]. *)
Fixpoint tokenize_loop (fuel : nat) (t : Tokenizer) (input : string)
    (result : list value) : outcome (option (list value)) :=
  if 0 <? String.length input then
    match fuel with
    | 0 => OutOfFuel
    | S fuel' =>
        let original := String.length input in
        '(input', result') ← tokenize_pass t input result;
        if String.length input' =? original then Ok None
        else tokenize_loop fuel' t input' result'
    end
  else Ok (Some result).

Definition tokenize (t : Tokenizer) (input : string)
  : outcome (option (list value)) :=
  tokenize_loop (String.length input) t input [].

End Tokenize.

(** ** [Grammar.parse]: the main loop

    The state of the loop: the state grid, the index [i] of
    [stateGrid.forEach], the index [j] of the inner [while] loop and the
    iteration counter. *)

Record config := {
  stateGrid : list (list state);
  cur_i : nat;
  cur_j : nat;
  numIterationsDone : Z
}.

Section Earley.
Context `{RegExpEngine}.
(** The rule table as [parse] reads it, the merged options and the
    input after tokenization. *)
Variable rules : string -> option (list (list sym)).
Variable options : options.
Variable input : list value.

(** [if ( numIterationsDone++ > options.maxIterations
          && options.maxIterations > 0 ) throw ...] *)
Definition tick (count : Z) : outcome Z :=
  if (count >? maxIterations options)%Z && (maxIterations options >? 0)%Z
  then Throw MaxIterations
  else Ok (count + 1)%Z.

(** [stateGrid[k].push( s )]. *)
Definition push (k : nat) (s : state) (grid : list (list state))
  : outcome (list (list state)) :=
  match grid !! k with
  | None => Throw TypeError
  | Some stateSet => Ok (<[k := stateSet ++ [s]]> grid)
  end.

(** The subtree the completer builds from a completed state. *)
Definition completed_got (st : state) : value :=
  let got := got st in
  let got := if addCategories options then VStr (lhs st) :: got else got in
  let got :=
    match expressionBuilder options with
    | Some _ => VFlag :: got
    | None => got
    end in
  if collapseBranches options && (length got =? 1)
  then default VUndef (got !! 0)
  else VArr got.

(** The body of [stateGrid[state.ori].forEach] in the completer. *)
Definition complete1 (i : nat) (st : state)
    (gc : list (list state) * Z) (s : state)
  : outcome (list (list state) * Z) :=
  let '(grid, count) := gc in
  if next_is (getNext s) (lhs st) then
    let s' := advance s (completed_got st) in
    grid' ← push i s' grid;
    count' ← tick count;
    Ok (grid', count')
  else Ok gc.

(** The completer.  [forEach] visits the elements the array had when
    it was called, also when [state.ori] is [i] and the array grows. *)
Definition completer (i : nat) (st : state) (grid : list (list state))
    (count : Z) : outcome (list (list state) * Z) :=
  match grid !! ori st with
  | None => Throw TypeError
  | Some origin => forEachM (complete1 i st) origin (grid, count)
  end.

(** The scanner. *)
Definition scanner (i : nat) (st : state) (source : string)
    (grid : list (list state)) : outcome (list (list state)) :=
  if regexp_test source (default VUndef (input !! i)) then
    let copy := advance st (default VUndef (input !! i)) in
    push (i + 1) copy grid
  else Ok grid.

(** The test of the predictor's inner [for ( let s of stateSet )]. *)
Definition already_predicted (next : string) (rhs0 : list sym) (s : state)
  : bool :=
  String.eqb (lhs s) next && equalArrays (rhs s) rhs0 && (pos s =? 0).

(** The body of [rhss.forEach] in the predictor. *)
Definition predict1 (i : nat) (next : string) (stateSet : list state)
    (rhs0 : list sym) : list state :=
  if existsb (already_predicted next rhs0) stateSet then stateSet
  else stateSet ++ [ {| lhs := next; rhs := rhs0; pos := 0; ori := i;
                        got := [] |} ].

Definition predictor (i : nat) (next : string) (rhss : list (list sym))
    (stateSet : list state) : list state :=
  fold_left (predict1 i next) rhss stateSet.

(** One pass of the inner [while] loop, or the move to the next state
    set when [j] has reached the end of the current one; [Ok None]
    when [forEach] has visited all of [stateGrid]. *)
Definition step (c : config) : outcome (option config) :=
  let i := cur_i c in
  let j := cur_j c in
  let grid := stateGrid c in
  match grid !! i with
  | None => Ok None
  | Some stateSet =>
      match stateSet !! j with
      | None =>
          Ok (Some {| stateGrid := grid; cur_i := S i; cur_j := 0;
                      numIterationsDone := numIterationsDone c |})
      | Some st =>
          match getNext st with
          | None =>
              '(grid', count') ← completer i st grid (numIterationsDone c);
              Ok (Some {| stateGrid := grid'; cur_i := i; cur_j := S j;
                          numIterationsDone := count' |})
          | Some next =>
              if length input <=? i then
                Ok (Some {| stateGrid := grid; cur_i := i; cur_j := S j;
                            numIterationsDone := numIterationsDone c |})
              else
                match next with
                | T source =>
                    grid' ← scanner i st source grid;
                    Ok (Some {| stateGrid := grid'; cur_i := i;
                                cur_j := S j;
                                numIterationsDone := numIterationsDone c |})
                | NT name =>
                    match rules name with
                    | None => Throw (UnknownNonterminal name)
                    | Some rhss =>
                        let grid' :=
                          <[i := predictor i name rhss stateSet]> grid in
                        count' ← tick (numIterationsDone c);
                        Ok (Some {| stateGrid := grid'; cur_i := i;
                                    cur_j := S j;
                                    numIterationsDone := count' |})
                    end
                end
          end
      end
  end.

Fixpoint run (fuel : nat) (c : config) : outcome config :=
  match fuel with
  | 0 => OutOfFuel
  | S fuel' =>
      r ← step c;
      match r with
      | None => Ok c
      | Some c' => run fuel' c'
      end
  end.

(** [new Array( input.length + 1 ).fill( null ).map( () => [ ] )] with
    the synthetic top rule pushed onto the first state set. *)
Definition initial (start : string) : config :=
  {| stateGrid :=
       [ {| lhs := ""; rhs := [NT start]; pos := 0; ori := 0; got := [] |} ]
       :: replicate (length input) [];
     cur_i := 0; cur_j := 0; numIterationsDone := 0 |}.

(** *** Collecting the results *)

(** [args.indexOf( undefined ) > -1]: on an array, a search with
    [===]; on a string, a search for the text ["undefined"]; a
    [TypeError] on anything without an [indexOf] method. *)
Definition has_undefined (args : value) : outcome bool :=
  match args with
  | VArr l =>
      Ok (existsb (fun v => match v with VUndef => true | _ => false end) l)
  | VStr s =>
      Ok (match String.index 0 "undefined" s with
          | Some _ => true
          | None => false
          end)
  | _ => Throw TypeError
  end.

Section Recur.
Variable builder : value -> value.

Fixpoint recur (obj : value) : outcome value :=
  match obj with
  | VArr (first :: rest) =>
      if loose_eq_flag first then
        args ← (fix map_recur (l : list value) : outcome (list value) :=
                  match l with
                  | [] => Ok []
                  | x :: r =>
                      x' ← recur x; r' ← map_recur r; Ok (x' :: r')
                  end) rest;
        let args :=
          if (length args =? 1) && collapseBranches options
          then default VUndef (args !! 0)
          else VArr args in
        undef ← has_undefined args;
        if (undef : bool) then Ok VUndef else Ok (builder args)
      else Ok obj
  | _ => Ok obj
  end.
End Recur.

(** The first half of the body of the final [forEach]: the candidate
    tree of a state, or [None] when the body is left before anything
    is added (the state is not a completed top rule, or the rebuilt
    result is falsy). *)
Definition root_of (st : state) : outcome (option value) :=
  if String.eqb (lhs st) "" && negb (bool_decide (is_Some (getNext st)))
  then
    let result := default VUndef (got st !! 0) in
    match expressionBuilder options with
    | Some builder =>
        r ← recur builder result;
        Ok (if truthy r then Some r else None)
    | None => Ok (Some result)
    end
  else Ok None.

(** [if ( !results.some( old => options.comparator( old, result ) ) )
        results.push( result )] *)
Definition push_new (results : list value) (result : value) : list value :=
  if existsb (fun old => comparator options old result) results
  then results
  else results ++ [result].

(** The body of the final [forEach] over the last state set. *)
Definition collect1 (results : list value) (st : state)
  : outcome (list value) :=
  r ← root_of st;
  match r with
  | None => Ok results
  | Some result => Ok (push_new results result)
  end.

Definition collect (grid : list (list state)) : outcome (list value) :=
  match last grid with
  | None => Throw TypeError
  | Some stateSet => forEachM collect1 stateSet []
  end.

(** The main loop, from the initial grid to the grid that the final
    [forEach] reads. *)
Definition main_loop (fuel : nat) (start : string)
  : outcome (list (list state)) :=
  c ← run fuel (initial start);
  Ok (stateGrid c).

End Earley.

(** ** [Grammar.parse]

    The input is a string or an array.  The call returns the grammar
    with its (mutated) defaults together with the outcome. *)

Inductive input : Type :=
  | InStr (s : string)
  | InArr (l : list value).

(** The characters of a string, as [input[i]] yields them. *)
Definition chars (s : string) : list value :=
  (fun c => VStr (String c "")) <$> list_ascii_of_string s.

(** The input after [if ( options.tokenizer && typeof( input ) ==
    'string' ) input = options.tokenizer.tokenize( input )]; [Ok None]
    is [null]. *)
Definition tokenized `{RegExpEngine} (options : options) (inp : input)
  : outcome (option (list value)) :=
  match tokenizer options, inp with
  | Some t, InStr s => tokenize t s
  | None, InStr s => Ok (Some (chars s))
  | _, InArr l => Ok (Some l)
  end.

(** The state grid at the end of the main loop; [input.length] throws
    when the tokenizer has returned [null]. *)
Definition final_grid `{RegExpEngine} (h : store) (g : Grammar)
    (inp : input) (opts : list setting) (fuel : nat)
  : outcome (list (list state)) :=
  let options := Object_assign (defaults g) opts in
  tokens ← tokenized options inp;
  match tokens with
  | None => Throw TypeError
  | Some l => main_loop (rules_of h g) options l fuel (START g)
  end.

Definition parse `{RegExpEngine} (h : store) (g : Grammar) (inp : input)
    (opts : list setting) (fuel : nat) : Grammar * outcome (list value) :=
  let options := Object_assign (defaults g) opts in
  let g' := {| START := START g; rules := rules g; defaults := options |} in
  (g', grid ← final_grid h g inp opts fuel; collect options grid).

(** The candidate trees of a state set in order, before duplicates are
    removed: what [root_of] yields for each state. *)
Fixpoint surviving_roots (options : options) (stateSet : list state)
  : outcome (list value) :=
  match stateSet with
  | [] => Ok []
  | st :: r =>
      x ← root_of options st;
      xs ← surviving_roots options r;
      Ok (match x with Some v => v :: xs | None => xs end)
  end.

(** No tree of the list is equal, under the comparator, to a later
    one. *)
Definition no_equal_pair (cmp : value -> value -> bool) (l : list value)
  : Prop :=
  forall i j a b, i < j -> l !! i = Some a -> l !! j = Some b ->
    cmp a b = false.

(** * Notions used in the statements *)

(** The number of states of [origin] that the completer advances for the
    completed state [st]: those whose next symbol is [st.lhs]. *)
Definition completions (st : state) (origin : list state) : nat :=
  length (List.filter (fun s => next_is (getNext s) (lhs st)) origin).

(** No two states at different places of a state set are both at dot
    zero with the same left-hand side and the same right-hand side
    (strings equal by value, regular expressions by source). *)
Definition pred_unique (stateSet : list state) : Prop :=
  forall p q s1 s2,
    stateSet !! p = Some s1 -> stateSet !! q = Some s2 ->
    pos s1 = 0 -> pos s2 = 0 -> lhs s1 = lhs s2 -> rhs s1 = rhs s2 ->
    p = q.

(** The configurations the main loop goes through. *)
Inductive reachable `{RegExpEngine}
    (rules : string -> option (list (list sym))) (options : options)
    (input : list value) (start : string) : config -> Prop :=
  | reachable_initial :
      reachable rules options input start (initial input start)
  | reachable_step c c' :
      reachable rules options input start c ->
      step rules options input c = Ok (Some c') ->
      reachable rules options input start c'.

(** ** Two rule tables that differ in one terminal

    The relations between the runs of the main loop on two rule tables
    that agree except for one production of the category [X], whose
    right-hand side is the single terminal [A] in the first table and the
    single terminal [B] in the second. *)

Section Related.
Variables (X A B : string).

(** The text of neither regular expression. *)
Definition name_ok (name : string) : Prop :=
  name <> regexp_to_string A /\ name <> regexp_to_string B.

(** Right-hand sides of the category [Y] at the same place of the two
    tables: the two terminals, or the same array, which [equalArrays]
    then tells apart from both terminals if [Y] is [X]. *)
Definition rhs_rel (Y : string) (a b : list sym) : Prop :=
  (a = b /\ (Y = X -> equalArrays a [T A] = false
                      /\ equalArrays a [T B] = false))
  \/ (Y = X /\ a = [T A] /\ b = [T B]).

Record item_rel (s1 s2 : state) : Prop := {
  rel_lhs : lhs s1 = lhs s2;
  rel_pos : pos s1 = pos s2;
  rel_ori : ori s1 = ori s2;
  rel_got : got s1 = got s2;
  rel_rhs : rhs_rel (lhs s1) (rhs s1) (rhs s2);
  rel_name : name_ok (lhs s1)
}.

Definition grid_rel : list (list state) -> list (list state) -> Prop :=
  Forall2 (Forall2 item_rel).

(** The state of the completer's loop: the grid and the counter. *)
Definition pair_rel (p1 p2 : list (list state) * Z) : Prop :=
  grid_rel p1.1 p2.1 /\ p1.2 = p2.2.

Definition config_rel (c1 c2 : config) : Prop :=
  grid_rel (stateGrid c1) (stateGrid c2)
  /\ cur_i c1 = cur_i c2 /\ cur_j c1 = cur_j c2
  /\ numIterationsDone c1 = numIterationsDone c2.

End Related.

(** Two outcomes of the same kind, with related results. *)
Definition outcome_rel {A B} (R : A -> B -> Prop) (o1 : outcome A)
    (o2 : outcome B) : Prop :=
  match o1, o2 with
  | Ok a, Ok b => R a b
  | Throw e1, Throw e2 => e1 = e2
  | OutOfFuel, OutOfFuel => True
  | _, _ => False
  end.

(** Every array that the grammar refers to is in the store. *)
Definition store_ok (h : store) (g : Grammar) : Prop :=
  forall name ls l, rules g !! name = Some ls -> l ∈ ls -> l < length h.

(** * Sample grammars and tokenizers

    Small concrete objects on which the model is evaluated, all over the
    engine [Fragment.engine]. *)

Module Samples.

(** [T = new Tokenizer(); T.addType( /a/, () => v )]. *)
Definition tokenizer_const (v : value) : Tokenizer :=
  addType new_Tokenizer "a" (FFun (fun _ _ => v)).

(** [T = new Tokenizer(); T.addType( /a/ )]. *)
Definition tokenizer_a : Tokenizer :=
  addType new_Tokenizer "a" identity_formatter.

(** [T.addType( /a|/ )]: the wrapped pattern matches the empty string
    where no [a] stands. *)
Definition tokenizer_empty : Tokenizer :=
  addType new_Tokenizer "a|" identity_formatter.

(** [G = new Grammar( 'S' ); G.addRule( 'S', /a/ )]. *)
Definition grammar_a : store * Grammar :=
  fst (addRule [] (new_Grammar "S") "S" [SeqRegExp "a"]).

(** [G = new Grammar( 'S' ); G.addRule( 'S', [ /a/, /a/, /a/ ] )], the
    array being the caller's, at address 0. *)
Definition grammar_aaa : store * Grammar :=
  fst (addRule [[T "a"; T "a"; T "a"]] (new_Grammar "S") "S" [SeqArray 0]).

(** [G = new Grammar( 'S' ); G.addRule( 'S', 'A', 'B' );
    G.addRule( 'A', /a/ ); G.addRule( 'B', /a/ )]. *)
Definition grammar_ambiguous : store * Grammar :=
  let '(h, g) :=
    fst (addRule [] (new_Grammar "S") "S" [SeqOther "A"; SeqOther "B"]) in
  let '(h, g) := fst (addRule h g "A" [SeqRegExp "a"]) in
  fst (addRule h g "B" [SeqRegExp "a"]).

(** [grammar_a] with [G.setOption( 'comparator', () => false )], which
    keeps duplicates. *)
Definition grammar_a_all : store * Grammar :=
  (fst grammar_a,
   setOption (snd grammar_a) (Set_comparator (fun _ _ => false))).

Definition tokens_a : input := InArr [VStr "a"].
Definition tokens_aaa : input := InArr [VStr "a"; VStr "a"; VStr "a"].

(** The main loop on [grammar_aaa] and the tokens [a a a], with
    [maxIterations] set to 3. *)
Definition options_max3 : options :=
  Object_assign (defaults (snd grammar_aaa)) [Set_maxIterations 3].

Definition rules_aaa : string -> option (list (list sym)) :=
  rules_of (fst grammar_aaa) (snd grammar_aaa).

Definition list_aaa : list value := [VStr "a"; VStr "a"; VStr "a"].

Definition top_state : state :=
  {| lhs := ""; rhs := [NT "S"]; pos := 0; ori := 0; got := [] |}.

Definition config_aaa_0 : config := initial list_aaa "S".

(** The configuration after the first step, a prediction. *)
Definition config_aaa_1 : config :=
  {| stateGrid :=
       [ [top_state;
          {| lhs := "S"; rhs := [T "^a$"; T "^a$"; T "^a$"]; pos := 0;
             ori := 0; got := [] |}]; []; []; [] ];
     cur_i := 0; cur_j := 1; numIterationsDone := 1 |}.

End Samples.

(** * Further notions and samples

    Notions used in the statements about the rest of the code, and the
    objects on which those statements are tried. *)

Module MoreSamples.

(** [T = new Tokenizer(); T.addType( /a/, 'tok' )]. *)
Definition tokenizer_template : Tokenizer :=
  addType new_Tokenizer "a" (FTemplate "tok").

(** [G = new Grammar( 'S' ); G.addRule( 'A', [ ] );
    G.addRule( 'S', 'A A B' ); G.addRule( 'B', /a/ )], the empty array
    being the caller's, at address 0. *)
Definition grammar_nullable : store * Grammar :=
  let '(h, g) := fst (addRule [[]] (new_Grammar "S") "A" [SeqArray 0]) in
  let '(h, g) := fst (addRule h g "S" [SeqOther "A A B"]) in
  fst (addRule h g "B" [SeqRegExp "a"]).

(** [G = new Grammar( 'S' ); G.addRule( 'S', 'A', 'B' );
    G.addRule( 'A', /NaN/ ); G.addRule( 'B', /NaN/ )]. *)
Definition grammar_ambiguous_NaN : store * Grammar :=
  let '(h, g) :=
    fst (addRule [] (new_Grammar "S") "S" [SeqOther "A"; SeqOther "B"]) in
  let '(h, g) := fst (addRule h g "A" [SeqRegExp "NaN"]) in
  fst (addRule h g "B" [SeqRegExp "NaN"]).

(** The grid at the end of the main loop for [Samples.grammar_aaa] on
    the tokens [a a a]: a prediction, three scans and two completions. *)
Definition grid_aaa : list (list state) :=
  [ [ Samples.top_state;
      {| lhs := "S"; rhs := [T "^a$"; T "^a$"; T "^a$"]; pos := 0;
         ori := 0; got := [] |} ];
    [ {| lhs := "S"; rhs := [T "^a$"; T "^a$"; T "^a$"]; pos := 1;
         ori := 0; got := [VStr "a"] |} ];
    [ {| lhs := "S"; rhs := [T "^a$"; T "^a$"; T "^a$"]; pos := 2;
         ori := 0; got := [VStr "a"; VStr "a"] |} ];
    [ {| lhs := "S"; rhs := [T "^a$"; T "^a$"; T "^a$"]; pos := 3;
         ori := 0; got := [VStr "a"; VStr "a"; VStr "a"] |};
      {| lhs := ""; rhs := [NT "S"]; pos := 1; ori := 0;
         got := [VArr [VStr "S"; VStr "a"; VStr "a"; VStr "a"]] |} ] ].

End MoreSamples.

(** ** States and derivations *)

(** [P k s] for every state [s] of every state set [k] of a grid. *)
Definition grid_all (P : nat -> state -> Prop) (grid : list (list state))
  : Prop :=
  forall k stateSet s, grid !! k = Some stateSet -> s ∈ stateSet -> P k s.

(** The shape of a state of state set [k]: it began at or before [k],
    its dot is inside its right-hand side, and it has got one entry per
    symbol before the dot. *)
Definition item_ok (k : nat) (s : state) : Prop :=
  ori s <= k /\ pos s <= length (rhs s) /\ length (got s) = pos s.

(** The tree that the completer builds for the category [name] from the
    entries [children]. *)
Definition subtree (options : options) (name : string)
    (children : list value) : value :=
  completed_got options
    {| lhs := name; rhs := []; pos := 0; ori := 0; got := children |}.

(** [rhs0] is one of the right-hand sides of [name]. *)
Definition rule_of (rules : string -> option (list (list sym)))
    (name : string) (rhs0 : list sym) : Prop :=
  exists rhss, rules name = Some rhss /\ rhs0 ∈ rhss.

(** The rules together with the synthetic top rule [-> start]. *)
Definition production (rules : string -> option (list (list sym)))
    (start : string) (name : string) (rhs0 : list sym) : Prop :=
  (name = "" /\ rhs0 = [NT start]) \/ rule_of rules name rhs0.

(** [parses prods options syms tokens entries]: the symbols [syms]
    derive the tokens [tokens], with the entries that the parser gets
    for them: a terminal accepts one token and leaves it as the entry; a
    nonterminal is expanded by one of its productions, and its entry is
    the subtree of the entries of that production. *)
Inductive parses `{RegExpEngine} (prods : string -> list sym -> Prop)
    (options : options) : list sym -> list value -> list value -> Prop :=
  | parses_nil : parses prods options [] [] []
  | parses_terminal syms tokens entries source token :
      parses prods options syms tokens entries ->
      regexp_test source token = true ->
      parses prods options (syms ++ [T source]) (tokens ++ [token])
        (entries ++ [token])
  | parses_nonterminal syms tokens entries name rhs0 tokens' entries' :
      parses prods options syms tokens entries ->
      prods name rhs0 ->
      parses prods options rhs0 tokens' entries' ->
      parses prods options (syms ++ [NT name]) (tokens ++ tokens')
        (entries ++ [subtree options name entries']).

(** What holds of a state [s] of state set [k] in the run on [input]:
    the symbols before its dot derive the tokens from its origin to
    [k], with its [got] as entries. *)
Definition item_sound `{RegExpEngine}
    (rules : string -> option (list (list sym))) (options : options)
    (input : list value) (start : string) (k : nat) (s : state) : Prop :=
  ori s <= k
  /\ production rules start (lhs s) (rhs s)
  /\ (lhs s = "" -> ori s = 0)
  /\ parses (production rules start) options (take (pos s) (rhs s))
       (take (k - ori s) (drop (ori s) input)) (got s).

(** ** Values *)

(** A value that holds [NaN], itself or at any depth of an array. *)
Fixpoint has_NaN (v : value) : bool :=
  match v with
  | VNaN => true
  | VArr l => existsb has_NaN l
  | _ => false
  end.

(** The value with zero in the place of every negative zero. *)
Fixpoint positive_zero (v : value) : value :=
  match v with
  | VNegZero => VNum 0
  | VArr l => VArr (map positive_zero l)
  | _ => v
  end.

(** ** Rules *)

(** The right-hand side that [addRule] makes for an argument that is
    not an array: the anchored regular expression alone, or the pieces
    of the text as names. *)
Definition fresh_rhs (sequence : sequence) : list sym :=
  match sequence with
  | SeqRegExp source => [anchor (T source)]
  | SeqOther text => NT <$> split_space text
  | SeqArray _ => []
  end.

Definition is_array (sequence : sequence) : bool :=
  match sequence with
  | SeqArray _ => true
  | _ => false
  end.

(** * Properties *)

(** ** The tokenizer *)

Lemma substr_length k s : String.length (substr k s) = String.length s - k.
Proof.
  revert s; induction k as [|k IH]; intros [|c s]; simpl; auto with lia.
Qed.

Lemma span_digits_length s ds rest :
  span_digits s = (ds, rest) -> length s = length ds + length rest.
Proof.
  revert ds rest; induction s as [|c s IH]; simpl; intros ds rest E.
  - by inversion E.
  - destruct (is_digit c).
    + destruct (span_digits s) as [ds' rest'] eqn:E'.
      inversion E; subst; simpl. f_equal. by apply IH.
    + by inversion E.
Qed.

Lemma find_placeholder_shorter s before ds after :
  find_placeholder s = Some (before, ds, after) -> length after < length s.
Proof.
  revert before; induction s as [|c s IH]; simpl; intros before E; [done|].
  assert (Hskip : forall b,
    match find_placeholder s with
    | Some (before0, ds0, after0) => Some (c :: before0, ds0, after0)
    | None => None
    end = Some (b, ds, after) -> length after < S (length s)).
  { intros b. destruct (find_placeholder s) as [[[b0 d0] a0]|]; [|done].
    intros E0; inversion E0; subst. specialize (IH _ eq_refl). lia. }
  destruct (Ascii.eqb c "%"); [|by eapply Hskip].
  destruct (span_digits s) as [[|d ds'] rest] eqn:Es; [by eapply Hskip|].
  inversion E; subst. apply span_digits_length in Es. simpl in Es. lia.
Qed.

Lemma expand_template_returns fuel m token format :
  length format <= fuel -> exists r, expand_template fuel m token format = Ok r.
Proof.
  revert token format; induction fuel as [|fuel IH]; intros token format Hf;
    simpl; destruct (find_placeholder format) as [[[b ds] a]|] eqn:E; eauto.
  - apply find_placeholder_shorter in E. lia.
  - apply IH. apply find_placeholder_shorter in E. lia.
Qed.

Section TokenizerFacts.
Context `{RegExpEngine}.

(** A pass always completes, and never lengthens the input. *)
Lemma tokenize_pass_returns t input result :
  exists input' result',
    tokenize_pass t input result = Ok (input', result')
    /\ String.length input' <= String.length input.
Proof.
  unfold tokenize_pass.
  destruct (first_match (tokenTypes t) input) as [[type m]|]; [|eauto].
  destruct (tt_formatter type) as [f|text].
  - eexists _, _; split; [done|]. rewrite substr_length. lia.
  - destruct (expand_template_returns (length (list_ascii_of_string text))
                m "" (list_ascii_of_string text)) as [tok ->]; [done|].
    eexists _, _; split; [done|]. rewrite substr_length. lia.
Qed.

(** What a pass does for a type with a callable formatter. *)
Lemma tokenize_pass_callable t input result type m f :
  first_match (tokenTypes t) input = Some (type, m) ->
  tt_formatter type = FFun f ->
  tokenize_pass t input result =
    Ok (substr (String.length (m0 m)) input,
        if truthy (f (m0 m) m) then result ++ [f (m0 m) m] else result).
Proof. intros E1 E2. unfold tokenize_pass. by rewrite E1, E2. Qed.

Lemma tokenize_loop_returns fuel t input result :
  String.length input <= fuel ->
  exists r, tokenize_loop fuel t input result = Ok r.
Proof.
  revert input result; induction fuel as [|fuel IH]; intros input result Hf;
    simpl; destruct (0 <? String.length input) eqn:E0; eauto.
  - apply Nat.ltb_lt in E0. lia.
  - destruct (tokenize_pass_returns t input result)
      as (input' & result' & -> & Hle). simpl.
    destruct (String.length input' =? String.length input) eqn:E; eauto.
    apply Nat.eqb_neq in E. apply IH. lia.
Qed.

(** C9.  [tokenize] returns on every input string (an array or
    [null]); a pass of its loop over a non-empty rest either leaves a
    strictly shorter rest for the next pass, or makes [tokenize_loop]
    return [null]; and when the first type that matches the rest
    matches the empty string, the result is [null]. *)
Theorem tokenize_terminates (t : Tokenizer) (input : string) :
  (exists r, tokenize t input = Ok r)
  /\ (forall fuel rest result, 0 < String.length rest ->
        (exists rest' result',
            tokenize_pass t rest result = Ok (rest', result')
            /\ String.length rest' < String.length rest
            /\ tokenize_loop (S fuel) t rest result
               = tokenize_loop fuel t rest' result')
        \/ tokenize_loop (S fuel) t rest result = Ok None)
  /\ (forall fuel rest result type m, 0 < String.length rest ->
        first_match (tokenTypes t) rest = Some (type, m) ->
        m0 m = "" ->
        tokenize_loop (S fuel) t rest result = Ok None).
Proof.
  split; [by apply tokenize_loop_returns|]. split.
  - intros fuel rest result Hpos.
    destruct (tokenize_pass_returns t rest result)
      as (rest' & result' & E & Hle).
    simpl. apply Nat.ltb_lt in Hpos as ->. rewrite E; simpl.
    destruct (String.length rest' =? String.length rest) eqn:El;
      [by right|left].
    apply Nat.eqb_neq in El. eexists _, _. split; [done|]. split; [lia|done].
  - intros fuel rest result type m Hpos Hm Hempty.
    destruct (tokenize_pass_returns t rest result)
      as (rest' & result' & E & _).
    assert (rest' = rest) as ->.
    { revert E. unfold tokenize_pass. rewrite Hm, Hempty; simpl.
      destruct (tt_formatter type); [by intros [= <- _]|].
      destruct (expand_template _ _ _ _); simpl; [|done..].
      by intros [= <- _]. }
    simpl. apply Nat.ltb_lt in Hpos as ->. rewrite E; simpl.
    by rewrite Nat.eqb_refl.
Qed.

End TokenizerFacts.

Lemma tokenize_terminates_witness :
  tokenize_loop (H:=Fragment.engine) 1 Samples.tokenizer_empty "b" []
  = Ok None.
Proof.
  destruct (tokenize_terminates (H:=Fragment.engine)
              Samples.tokenizer_empty "b") as (_ & _ & H3).
  eapply (H3 0 "b" []); [simpl; lia | reflexivity | reflexivity].
Defined.


(** C4.  [tokenize] tests the value returned by a callable formatter for
    truthiness: a formatter that returns the number 0 or the empty
    string has its token left out, exactly like one that returns [null];
    a non-empty string is appended. *)
Theorem tokenize_drops_falsy_tokens :
  tokenize (H:=Fragment.engine) (Samples.tokenizer_const (VNum 0)) "a"
    = Ok (Some [])
  /\ tokenize (H:=Fragment.engine) (Samples.tokenizer_const (VStr "")) "a"
    = Ok (Some [])
  /\ tokenize (H:=Fragment.engine) (Samples.tokenizer_const VNull) "a"
    = Ok (Some [])
  /\ tokenize (H:=Fragment.engine) (Samples.tokenizer_const (VStr "x")) "a"
    = Ok (Some [VStr "x"]).
Proof. repeat split; vm_compute; reflexivity. Qed.

(** ** [parse]: tokenizer failure and the stored defaults *)

Lemma parse_defaults `{RegExpEngine} h g inp opts fuel :
  defaults (fst (parse h g inp opts fuel)) = Object_assign (defaults g) opts
  /\ rules (fst (parse h g inp opts fuel)) = rules g
  /\ START (fst (parse h g inp opts fuel)) = START g.
Proof. done. Qed.

(** C1.  When a tokenizer is configured and fails on a string input
    ([tokenize] returns [null]), [parse] throws a [TypeError] (from
    [input.length]) instead of returning the empty array. *)
Theorem parse_tokenizer_failure_throws `{RegExpEngine} h g s opts fuel t :
  tokenizer (Object_assign (defaults g) opts) = Some t ->
  tokenize t s = Ok None ->
  snd (parse h g (InStr s) opts fuel) = Throw TypeError.
Proof.
  intros Ht Hnull. unfold parse, final_grid, tokenized; simpl.
  by rewrite Ht, Hnull.
Qed.

Lemma parse_tokenizer_failure_throws_witness :
  snd (parse (H:=Fragment.engine) (fst Samples.grammar_a)
         (snd Samples.grammar_a) (InStr "ab")
         [Set_tokenizer (Some Samples.tokenizer_a)] 10)
  = Throw TypeError.
Proof.
  apply (parse_tokenizer_failure_throws (H:=Fragment.engine) _ _ "ab" _ 10
           Samples.tokenizer_a); reflexivity.
Defined.

(** C2.  [parse] writes the options it is given into the grammar's
    stored defaults ([Object.assign( this.defaults, options )]): after a
    call with [{ addCategories : false }] the defaults have changed, and
    a later call without options returns trees without categories, where
    the same call on the untouched grammar returns them with
    categories. *)
Theorem parse_options_persist :
  let h := fst Samples.grammar_a in
  let g := snd Samples.grammar_a in
  let g1 := fst (parse (H:=Fragment.engine) h g Samples.tokens_a
                   [Set_addCategories false] 10) in
  defaults g1 <> defaults g
  /\ snd (parse (H:=Fragment.engine) h g Samples.tokens_a [] 10)
     = Ok [VArr [VStr "S"; VStr "a"]]
  /\ snd (parse (H:=Fragment.engine) h g1 Samples.tokens_a [] 10)
     = Ok [VArr [VStr "a"]].
Proof.
  repeat split; try (vm_compute; reflexivity).
  intros E. apply (f_equal addCategories) in E. discriminate E.
Qed.

(** ** [addRule] and the caller's arrays *)

Lemma string_app_length (s1 s2 : string) :
  String.length (s1 +:+ s2) = String.length s1 + String.length s2.
Proof. induction s1 as [|c s1 IH]; simpl; auto. Qed.

Lemma anchor_regexp_changes source : anchor (T source) <> T source.
Proof.
  simpl. intros [= E]. apply (f_equal String.length) in E.
  rewrite !string_app_length in E. simpl in E. lia.
Qed.

(** What the body of [addRule] does when [this.rules[categoryName]] is
    an array of the grammar or nothing at all. *)
Lemma addRule1_pushed categoryName h g sequence :
  (rules g !! categoryName = None -> inherited categoryName = false) ->
  addRule1 categoryName (h, g) sequence
  = let '(l, h1) :=
      match sequence with
      | SeqRegExp source => (length h, h ++ [[T source]])
      | SeqArray l => (l, h)
      | SeqOther text => (length h, h ++ [NT <$> split_space text])
      end in
    ((alter (fmap anchor) l h1,
      {| START := START g;
         rules := <[categoryName :=
                      default [] (rules g !! categoryName) ++ [l]]> (rules g);
         defaults := defaults g |}), Ok tt).
Proof.
  intros Hname. unfold addRule1.
  destruct sequence as [source|l|text];
    (destruct (rules g !! categoryName) as [old|]; [done|];
     by rewrite Hname).
Qed.

(** What it does when [this.rules[categoryName]] is inherited. *)
Lemma addRule1_throws categoryName h g sequence :
  rules g !! categoryName = None -> inherited categoryName = true ->
  addRule1 categoryName (h, g) sequence
  = let '(l, h1) :=
      match sequence with
      | SeqRegExp source => (length h, h ++ [[T source]])
      | SeqArray l => (l, h)
      | SeqOther text => (length h, h ++ [NT <$> split_space text])
      end in
    ((alter (fmap anchor) l h1, g), Throw TypeError).
Proof.
  intros Hnone Hname. unfold addRule1.
  destruct sequence as [source|l|text]; by rewrite Hnone, Hname.
Qed.



(** ** The returned trees *)

Lemma forEachM_collect options stateSet acc :
  forEachM (collect1 options) stateSet acc
  = roots ← surviving_roots options stateSet;
    Ok (fold_left (push_new options) roots acc).
Proof.
  revert acc; induction stateSet as [|st r IH]; intros acc; [done|].
  cbn [forEachM surviving_roots].
  replace (collect1 options acc st)
    with (x ← root_of options st;
          Ok (match x with Some v => push_new options acc v | None => acc end)).
  2:{ unfold collect1. by destruct (root_of options st) as [[v|]| |]. }
  destruct (root_of options st) as [[v|]| |]; simpl; try done;
    rewrite IH; by destruct (surviving_roots options r).
Qed.

Lemma no_equal_pair_snoc cmp l x :
  no_equal_pair cmp l ->
  existsb (fun old => cmp old x) l = false ->
  no_equal_pair cmp (l ++ [x]).
Proof.
  intros Hl Hx i j a b Hij Hi Hj.
  destruct (decide (j < length l)) as [Hlt|Hge].
  - rewrite lookup_app_l in Hi, Hj by lia. eauto.
  - assert (i < length (l ++ [x])) by (eapply lookup_lt_Some; eauto using lookup_lt_Some).
    assert (j < length (l ++ [x])) by eauto using lookup_lt_Some.
    rewrite length_app in *; simpl in *.
    assert (j = length l) as -> by lia.
    rewrite lookup_app_l in Hi by lia.
    rewrite list_lookup_middle in Hj by done. injection Hj as <-.
    destruct (cmp a x) eqn:E; [|done].
    assert (existsb (fun old => cmp old x) l = true); [|congruence].
    apply existsb_exists. exists a. split; [|done].
    apply list_elem_of_In. eapply list_elem_of_lookup_2; eauto.
Qed.

(** The loop that pushes the new trees, started from any list [acc]
    without equal pair. *)
Lemma push_new_all options roots acc :
  let cmp := comparator options in
  no_equal_pair cmp acc ->
  exists kept,
    fold_left (push_new options) roots acc = acc ++ kept
    /\ no_equal_pair cmp (acc ++ kept)
    /\ kept `sublist_of` roots
    /\ (forall pre t post, roots = pre ++ t :: post ->
          (exists r, r ∈ acc ++ pre /\ r ∈ acc ++ kept /\ cmp r t = true)
          \/ t ∈ kept).
Proof.
  intros cmp. revert acc; induction roots as [|t0 roots IH]; intros acc Hacc.
  - exists []. rewrite app_nil_r. repeat split; auto.
    intros [|??] ?? E; discriminate E.
  - simpl. unfold push_new at 2. fold cmp.
    destruct (existsb (fun old => cmp old t0) acc) eqn:Ex.
    + destruct (IH acc Hacc) as (kept & E & Hp & Hs & Hc).
      exists kept. split; [done|]. split; [done|].
      split; [by apply sublist_cons|].
      intros [|p pre] t post Eq; simpl in Eq; injection Eq as ? ?; subst.
      * left. apply existsb_exists in Ex as (r & Hr & Hcmp).
        apply list_elem_of_In in Hr.
        exists r. rewrite app_nil_r. set_solver.
      * destruct (Hc pre t post eq_refl) as [(r & Hr1 & Hr2 & Hr3)|Hk];
          [left|by right].
        exists r. rewrite elem_of_app, elem_of_cons.
        rewrite elem_of_app in Hr1. tauto.
    + destruct (IH (acc ++ [t0])) as (kept & E & Hp & Hs & Hc);
        [by apply no_equal_pair_snoc|].
      exists (t0 :: kept). rewrite <- app_assoc in E, Hp. simpl in E, Hp.
      split; [done|]. split; [done|].
      split; [by apply sublist_skip|].
      intros [|p pre] t post Eq; simpl in Eq; injection Eq as ? ?; subst.
      * right. by apply elem_of_cons; left.
      * destruct (Hc pre t post eq_refl) as [(r & Hr1 & Hr2 & Hr3)|Hk].
        -- left. exists r. rewrite <- app_assoc in Hr1, Hr2.
           simpl in Hr1, Hr2. rewrite elem_of_app, elem_of_cons.
           rewrite elem_of_app, elem_of_cons in Hr1. tauto.
        -- right. by apply elem_of_cons; right.
Qed.

(** C7.  When [parse] returns, no tree of the result is equal, under the
    configured comparator, to a later tree of the result (to any other
    tree of the result, when the comparator is symmetric); and the
    result lists the candidate trees of the last state set in their
    order of first occurrence: it is a subsequence of the candidates,
    and a candidate is either kept or equal, under the comparator, to
    a kept tree that occurred before it. *)
Theorem parse_results_deduplicated `{RegExpEngine} h g inp opts fuel results :
  snd (parse h g inp opts fuel) = Ok results ->
  let options := Object_assign (defaults g) opts in
  no_equal_pair (comparator options) results
  /\ ((forall a b, comparator options a b = comparator options b a) ->
      forall i j a b, i <> j -> results !! i = Some a ->
        results !! j = Some b -> comparator options a b = false)
  /\ exists grid stateSet roots,
       final_grid h g inp opts fuel = Ok grid
       /\ last grid = Some stateSet
       /\ surviving_roots options stateSet = Ok roots
       /\ results `sublist_of` roots
       /\ (forall pre t post, roots = pre ++ t :: post ->
             (exists r, r ∈ pre /\ r ∈ results
                        /\ comparator options r t = true)
             \/ t ∈ results).
Proof.
  intros E options. unfold parse in E; simpl in E.
  destruct (final_grid h g inp opts fuel) as [grid| |]; simpl in E; try done.
  unfold collect in E. destruct (last grid) as [stateSet|] eqn:El; [|done].
  rewrite forEachM_collect in E. fold options in E.
  destruct (surviving_roots options stateSet) as [roots| |] eqn:Er;
    simpl in E; try done.
  injection E as <-.
  destruct (push_new_all options roots []) as (kept & -> & Hp & Hs & Hc).
  { intros i j a b _ Hi. by rewrite lookup_nil in Hi. }
  simpl in *. split; [done|]. split.
  - intros Hsym i j a b Hij Hi Hj.
    destruct (decide (i < j)); [by eapply Hp|].
    rewrite Hsym. eapply (Hp j i); eauto with lia.
  - exists grid, stateSet, roots. repeat split; auto.
Qed.

Lemma parse_results_deduplicated_witness :
  let h := fst Samples.grammar_ambiguous in
  let g := snd Samples.grammar_ambiguous in
  let opts := [Set_addCategories false; Set_collapseBranches true] in
  no_equal_pair sameJSON [VStr "a"]
  /\ ((forall a b, sameJSON a b = sameJSON b a) ->
      forall i j a b, i <> j -> [VStr "a"] !! i = Some a ->
        [VStr "a"] !! j = Some b -> sameJSON a b = false)
  /\ exists grid stateSet roots,
       final_grid (H:=Fragment.engine) h g Samples.tokens_a opts 20 = Ok grid
       /\ last grid = Some stateSet
       /\ surviving_roots (Object_assign (defaults g) opts) stateSet = Ok roots
       /\ [VStr "a"] `sublist_of` roots
       /\ (forall pre t post, roots = pre ++ t :: post ->
             (exists r, r ∈ pre /\ r ∈ [VStr "a"] /\ sameJSON r t = true)
             \/ t ∈ [VStr "a"]).
Proof.
  exact (parse_results_deduplicated (H:=Fragment.engine)
           (fst Samples.grammar_ambiguous) (snd Samples.grammar_ambiguous)
           Samples.tokens_a
           [Set_addCategories false; Set_collapseBranches true] 20
           [VStr "a"] ltac:(vm_compute; reflexivity)).
Defined.

(** ** The main loop, one step at a time *)

Section StepFacts.
Context `{RegExpEngine}.
Variable rules : string -> option (list (list sym)).
Variable options : options.
Variable input : list value.

Lemma tick_spec count :
  (tick options count = Ok (count + 1)%Z
   /\ ((count <= maxIterations options)%Z \/ (maxIterations options <= 0)%Z))
  \/ (tick options count = Throw MaxIterations
      /\ (maxIterations options < count)%Z /\ (0 < maxIterations options)%Z).
Proof.
  unfold tick.
  destruct (Z.gtb_spec count (maxIterations options));
    destruct (Z.gtb_spec (maxIterations options) 0); simpl;
    first [left; split; [reflexivity|lia] | right; split; [reflexivity|lia]].
Qed.

Lemma push_lookup k s (grid : list (list state)) stateSet :
  grid !! k = Some stateSet ->
  push k s grid = Ok (<[k := stateSet ++ [s]]> grid).
Proof. intros E. unfold push. by rewrite E. Qed.

(** The completer's loop over (a part of) the origin state set. *)
Lemma completer_loop i st origin :
  forall grid count stateSet, grid !! i = Some stateSet ->
  match forEachM (complete1 options i st) origin (grid, count) with
  | Ok (grid', count') =>
      exists news,
        grid' = <[i := stateSet ++ news]> grid
        /\ length news = completions st origin
        /\ count' = (count + Z.of_nat (completions st origin))%Z
        /\ Forall (fun s => 0 < pos s) news
  | Throw e =>
      e = MaxIterations
      /\ (0 < maxIterations options)%Z
      /\ (maxIterations options < count + Z.of_nat (completions st origin))%Z
  | OutOfFuel => False
  end.
Proof.
  unfold completions.
  induction origin as [|s origin IH]; intros grid count stateSet Hi; simpl.
  - exists []. rewrite app_nil_r, list_insert_id by done.
    repeat split; auto with lia.
  - unfold complete1 at 1.
    destruct (next_is (getNext s) (lhs st)) eqn:En; simpl.
    + erewrite push_lookup by done. simpl.
      destruct (tick_spec count) as [[-> _]|[-> [? ?]]]; simpl.
      2:{ repeat split; auto with lia. }
      set (s' := advance s _).
      specialize (IH (<[i:=stateSet ++ [s']]> grid) (count + 1)%Z
                    (stateSet ++ [s'])).
      rewrite list_lookup_insert_eq in IH by eauto using lookup_lt_Some.
      specialize (IH eq_refl).
      destruct (forEachM _ _ _) as [[grid' count']|e|]; [| |done].
      2:{ destruct IH as (-> & ? & ?). repeat split; auto with lia. }
      destruct IH as (news & -> & Hlen & -> & Hpos).
      exists (s' :: news). rewrite list_insert_insert_eq, <- app_assoc.
      simpl. repeat split; auto with lia.
      constructor; [simpl; lia|done].
    + apply IH. done.
Qed.

Lemma entry_differs_refl e : entry_differs e e = false.
Proof. destruct e; simpl; by rewrite String.eqb_refl. Qed.

(** Entry-wise equal arrays are equal for [equalArrays]. *)
Lemma equalArrays_refl a : equalArrays a a = true.
Proof.
  unfold equalArrays. rewrite Nat.eqb_refl; simpl.
  induction a as [|e a IH]; simpl; [done|]. by rewrite entry_differs_refl.
Qed.

Lemma pred_unique_snoc l s :
  pred_unique l ->
  (pos s = 0 -> forall s1, s1 ∈ l -> pos s1 = 0 -> lhs s1 = lhs s ->
     rhs s1 = rhs s -> False) ->
  pred_unique (l ++ [s]).
Proof.
  intros Hl Hs p q s1 s2 Hp Hq H1 H2 Hlhs Hrhs.
  assert (p < length (l ++ [s])) as Hp' by eauto using lookup_lt_Some.
  assert (q < length (l ++ [s])) as Hq' by eauto using lookup_lt_Some.
  rewrite length_app in Hp', Hq'; simpl in Hp', Hq'.
  destruct (decide (p < length l)) as [Hpl|Hpl];
    destruct (decide (q < length l)) as [Hql|Hql].
  - rewrite lookup_app_l in Hp, Hq by done. eauto.
  - assert (q = length l) as -> by lia.
    rewrite lookup_app_l in Hp by done.
    rewrite list_lookup_middle in Hq by done. injection Hq as <-.
    exfalso. eapply Hs; eauto using list_elem_of_lookup_2.
  - assert (p = length l) as -> by lia.
    rewrite lookup_app_l in Hq by done.
    rewrite list_lookup_middle in Hp by done. injection Hp as <-.
    exfalso. eapply (Hs H1 s2); eauto using list_elem_of_lookup_2.
  - lia.
Qed.

Lemma pred_unique_app_advanced l news :
  pred_unique l -> Forall (fun s => 0 < pos s) news ->
  pred_unique (l ++ news).
Proof.
  intros Hl Hn. revert l Hl; induction Hn as [|s news Hs _ IH]; intros l Hl.
  - by rewrite app_nil_r.
  - replace (l ++ s :: news) with ((l ++ [s]) ++ news)
      by (by rewrite <- app_assoc).
    apply IH.
    apply pred_unique_snoc; [done|lia].
Qed.

Lemma existsb_snoc {A} (f : A -> bool) l x :
  existsb f (l ++ [x]) = existsb f l || f x.
Proof. rewrite existsb_app. simpl. by rewrite orb_false_r. Qed.

(** The predictor's loop over (a part of) the right-hand sides of
    [next]: it appends dot-zero states with origin [i] for right-hand
    sides that its test did not find, after which the test finds every
    right-hand side; and it keeps [pred_unique]. *)
Lemma predictor_loop i next rhss :
  forall stateSet,
  exists news,
    predictor i next rhss stateSet = stateSet ++ news
    /\ Forall (fun s => lhs s = next /\ pos s = 0 /\ ori s = i /\ got s = []
                        /\ rhs s ∈ rhss
                        /\ existsb (already_predicted next (rhs s)) stateSet
                           = false) news
    /\ (forall rhs0, rhs0 ∈ rhss ->
          existsb (already_predicted next rhs0) (stateSet ++ news) = true)
    /\ (pred_unique stateSet -> pred_unique (stateSet ++ news)).
Proof.
  induction rhss as [|rhs0 rhss IH]; intros stateSet.
  - exists []. rewrite app_nil_r. repeat split; auto.
    intros ? Hin. by apply elem_of_nil in Hin.
  - cbn [predictor fold_left]. unfold predict1 at 2.
    destruct (existsb (already_predicted next rhs0) stateSet) eqn:Ex.
    + destruct (IH stateSet) as (news & E & Hn & Hall & Hu).
      exists news. split; [done|]. split; [|split; [|done]].
      * eapply Forall_impl; [exact Hn|]. simpl.
        intros s (?&?&?&?&?&?). repeat split; auto. by apply elem_of_cons; right.
      * intros r [->|Hr]%elem_of_cons; [|by apply Hall].
        by rewrite existsb_app, Ex.
    + set (n0 := {| lhs := next; rhs := rhs0; pos := 0; ori := i; got := [] |}).
      destruct (IH (stateSet ++ [n0])) as (news & E & Hn & Hall & Hu).
      exists (n0 :: news). rewrite <- app_assoc in E, Hall, Hu. simpl in *.
      split; [done|]. split; [|split].
      * constructor.
        { repeat split; auto. by apply elem_of_cons; left. }
        eapply Forall_impl; [exact Hn|]. simpl.
        intros s (?&?&?&?&?&Hex). repeat split; auto.
        -- by apply elem_of_cons; right.
        -- rewrite existsb_snoc in Hex. by apply orb_false_elim in Hex as [? _].
      * intros r [->|Hr]%elem_of_cons; [|by apply Hall].
        rewrite existsb_app. simpl. unfold already_predicted at 2; simpl.
        by rewrite String.eqb_refl, equalArrays_refl, !orb_true_r.
      * intros Hs. apply Hu. apply pred_unique_snoc; [done|].
        intros _ s1 Hin Hpos Hlhs Hrhs. simpl in *.
        assert (existsb (already_predicted next rhs0) stateSet = true);
          [|congruence].
        apply existsb_exists. exists s1. split; [by apply list_elem_of_In|].
        unfold already_predicted.
        by rewrite Hlhs, Hrhs, Hpos, String.eqb_refl, equalArrays_refl.
Qed.

(** The iteration limit is never raised by a step when it is disabled,
    whatever the configuration. *)
Lemma step_unlimited c :
  (maxIterations options <= 0)%Z ->
  step rules options input c <> Throw MaxIterations.
Proof.
  intros Hn. unfold step.
  destruct (stateGrid c !! cur_i c) as [stateSet|] eqn:Ei; [|done].
  destruct (stateSet !! cur_j c) as [st|]; [|done].
  destruct (getNext st) as [[name|source]|].
  - destruct (length input <=? cur_i c); [done|].
    destruct (rules name); [|done].
    destruct (tick_spec (numIterationsDone c)) as [[-> _]|[_ [_ ?]]];
      [done|lia].
  - destruct (length input <=? cur_i c); [done|].
    unfold scanner. destruct (regexp_test _ _); [|done].
    unfold push. by destruct (stateGrid c !! (cur_i c + 1)).
  - unfold completer. destruct (stateGrid c !! ori st) as [origin|]; [|done].
    pose proof (completer_loop (cur_i c) st origin (stateGrid c)
                  (numIterationsDone c) stateSet Ei) as Hl.
    destruct (forEachM _ _ _) as [[grid' count']|e|]; try done.
    destruct Hl as (_ & ? & _). lia.
Qed.

End StepFacts.




(** ** The predictor *)

(** C5.  For a state of state set [i] whose next symbol is the
    nonterminal [name]: when [i] is before the last state set, an
    unknown [name] makes the step throw; otherwise the step appends to
    state set [i] fresh dot-zero states with origin [i] and empty [got]
    for right-hand sides of [name] that the predictor's test did not
    find there, so that afterwards the test finds every right-hand side
    of [name], and then counts one iteration.  In the last state set the
    state is skipped: nothing is appended and nothing is thrown. *)
Theorem predictor_runs_before_last `{RegExpEngine}
    (rules : string -> option (list (list sym))) (options : options)
    (input : list value) (c : config) (stateSet : list state) (st : state)
    (name : string) :
  stateGrid c !! cur_i c = Some stateSet ->
  stateSet !! cur_j c = Some st ->
  getNext st = Some (NT name) ->
  let i := cur_i c in
  (i < length input ->
     match rules name with
     | None => step rules options input c = Throw (UnknownNonterminal name)
     | Some rhss =>
         exists news,
           Forall (fun s => lhs s = name /\ pos s = 0 /\ ori s = i
                            /\ got s = [] /\ rhs s ∈ rhss
                            /\ existsb (already_predicted name (rhs s))
                                 stateSet = false) news
           /\ (forall rhs0, rhs0 ∈ rhss ->
                 existsb (already_predicted name rhs0) (stateSet ++ news)
                 = true)
           /\ step rules options input c
              = (count' ← tick options (numIterationsDone c);
                 Ok (Some {| stateGrid := <[i := stateSet ++ news]>
                                            (stateGrid c);
                             cur_i := i; cur_j := S (cur_j c);
                             numIterationsDone := count' |}))
     end)
  /\ (length input <= i ->
      step rules options input c
      = Ok (Some {| stateGrid := stateGrid c; cur_i := i;
                    cur_j := S (cur_j c);
                    numIterationsDone := numIterationsDone c |})).
Proof.
  intros Ei Ej En i. unfold step; cbv zeta. rewrite Ei, Ej, En. fold i.
  split.
  - intros Hlt. apply Nat.leb_gt in Hlt as ->.
    destruct (rules name) as [rhss|]; [|done].
    destruct (predictor_loop i name rhss stateSet)
      as (news & -> & Hnews & Hall & _).
    by exists news.
  - by intros ->%Nat.leb_le.
Qed.

Lemma predictor_runs_before_last_witness :
  step (H:=Fragment.engine) (fun _ => None) Samples.options_max3
    Samples.list_aaa Samples.config_aaa_0
  = Throw (UnknownNonterminal "S")
  /\ step (H:=Fragment.engine) Samples.rules_aaa Samples.options_max3 []
       (initial [] "S")
     = Ok (Some {| stateGrid := [[Samples.top_state]]; cur_i := 0;
                   cur_j := 1; numIterationsDone := 0 |}).
Proof.
  split.
  - apply (proj1 (predictor_runs_before_last (H:=Fragment.engine)
                    (fun _ => None) Samples.options_max3 Samples.list_aaa
                    Samples.config_aaa_0 [Samples.top_state]
                    Samples.top_state "S" eq_refl eq_refl eq_refl)).
    simpl; lia.
  - apply (proj2 (predictor_runs_before_last (H:=Fragment.engine)
                    Samples.rules_aaa Samples.options_max3 []
                    (initial [] "S") [Samples.top_state]
                    Samples.top_state "S" eq_refl eq_refl eq_refl)).
    simpl; lia.
Defined.

(** C5, as stated, fails in the last state set: on the empty input the
    only state set is the last one, and its state [-> . S] is skipped.
    With [S] undefined no error is raised; with [S -> a] defined no
    state for that production is appended. *)
Lemma predictor_skips_last_state_set :
  snd (parse (H:=Fragment.engine) [] (new_Grammar "S") (InArr []) [] 10)
  = Ok []
  /\ final_grid (H:=Fragment.engine) (fst Samples.grammar_a)
       (snd Samples.grammar_a) (InArr []) [] 10
     = Ok [[Samples.top_state]].
Proof. split; vm_compute; reflexivity. Qed.

(** ** Predictions are unique in a state set *)

Section Unique.
Context `{RegExpEngine}.
Variable rules : string -> option (list (list sym)).
Variable options : options.
Variable input : list value.

Lemma initial_unique start :
  Forall pred_unique (stateGrid (initial input start)).
Proof.
  simpl. constructor.
  - intros [|p] [|q] s1 s2 Hp Hq; simpl in *; try done.
  - apply Forall_replicate. intros p q s1 s2 Hp. by rewrite lookup_nil in Hp.
Qed.

(** The states of the completer's loop, after any number of its passes. *)
Lemma completer_unique i st origin grid count stateSet grid' count' :
  Forall pred_unique grid -> grid !! i = Some stateSet ->
  forEachM (complete1 options i st) origin (grid, count) = Ok (grid', count') ->
  Forall pred_unique grid'.
Proof.
  intros Hg Hi E.
  pose proof (completer_loop options i st origin grid count stateSet Hi) as Hl.
  rewrite E in Hl. destruct Hl as (news & -> & _ & _ & Hpos).
  apply Forall_insert; [done|].
  apply pred_unique_app_advanced; [|done].
  eapply Forall_lookup_1; eauto.
Qed.

Lemma step_unique c c' :
  Forall pred_unique (stateGrid c) ->
  step rules options input c = Ok (Some c') ->
  Forall pred_unique (stateGrid c').
Proof.
  intros Hg. unfold step; cbv zeta.
  destruct (stateGrid c !! cur_i c) as [stateSet|] eqn:Ei; [|done].
  destruct (stateSet !! cur_j c) as [st|]; [|by intros [= <-]].
  destruct (getNext st) as [[name|source]|].
  - destruct (length input <=? cur_i c); [by intros [= <-]|].
    destruct (rules name) as [rhss|]; [|done].
    destruct (tick options (numIterationsDone c)); simpl; try done.
    intros [= <-]; simpl. apply Forall_insert; [done|].
    destruct (predictor_loop (cur_i c) name rhss stateSet)
      as (news & -> & _ & _ & Hu).
    apply Hu. eapply Forall_lookup_1; eauto.
  - destruct (length input <=? cur_i c); [by intros [= <-]|].
    unfold scanner. destruct (regexp_test _ _); [|by intros [= <-]].
    unfold push.
    destruct (stateGrid c !! (cur_i c + 1)) as [next|] eqn:En; [|done].
    simpl. intros [= <-]; simpl. apply Forall_insert; [done|].
    apply pred_unique_snoc; [by eapply Forall_lookup_1; eauto|].
    simpl; lia.
  - unfold completer. destruct (stateGrid c !! ori st) as [origin|]; [|done].
    destruct (forEachM _ _ _) as [[grid' count']|e|] eqn:E; try done.
    simpl. intros [= <-]; simpl. eapply completer_unique; eauto.
Qed.

Lemma reachable_unique start c :
  reachable rules options input start c -> Forall pred_unique (stateGrid c).
Proof.
  induction 1; [apply initial_unique|by eapply step_unique; eauto].
Qed.

Lemma run_reachable start fuel c c' :
  reachable rules options input start c ->
  run rules options input fuel c = Ok c' ->
  reachable rules options input start c'.
Proof.
  revert c; induction fuel as [|fuel IH]; intros c Hc; [done|]. simpl.
  destruct (step rules options input c) as [[c1|]|e|] eqn:E; simpl; try done.
  - apply IH. by eapply reachable_step; eauto.
  - by intros [= <-].
Qed.

End Unique.

(** C8.  In every configuration the main loop goes through, no state
    set holds, at two different places, two dot-zero states with the
    same left-hand side and the same right-hand side.  This also holds
    between the steps of the loop: after any number of passes of the
    completer's [forEach] and after any number of passes of the
    predictor's [forEach] for the state the loop is at.  The predictor's
    test does not look at [got] and [ori]. *)
Theorem predictions_unique `{RegExpEngine}
    (rules : string -> option (list (list sym))) (options : options)
    (input : list value) (start : string) (c : config) :
  reachable rules options input start c ->
  Forall pred_unique (stateGrid c)
  /\ (forall stateSet st,
        stateGrid c !! cur_i c = Some stateSet -> stateSet !! cur_j c = Some st ->
        (forall origin1 origin2 grid' count',
           getNext st = None ->
           stateGrid c !! ori st = Some (origin1 ++ origin2) ->
           forEachM (complete1 options (cur_i c) st) origin1
             (stateGrid c, numIterationsDone c) = Ok (grid', count') ->
           Forall pred_unique grid')
        /\ (forall name rhss1 rhss2,
              getNext st = Some (NT name) ->
              rules name = Some (rhss1 ++ rhss2) ->
              pred_unique (predictor (cur_i c) name rhss1 stateSet)))
  /\ (forall next rhs0 s ori' got',
        already_predicted next rhs0
          {| lhs := lhs s; rhs := rhs s; pos := pos s; ori := ori';
             got := got' |}
        = already_predicted next rhs0 s).
Proof.
  intros Hc. pose proof (reachable_unique _ _ _ _ _ Hc) as Hg.
  split; [done|]. split; [|done].
  intros stateSet st Ei Ej. split.
  - intros origin1 origin2 grid' count' _ _ E.
    eapply completer_unique; eauto.
  - intros name rhss1 rhss2 _ _.
    destruct (predictor_loop (cur_i c) name rhss1 stateSet)
      as (news & -> & _ & _ & Hu).
    apply Hu. eapply Forall_lookup_1; eauto.
Qed.

Lemma predictions_unique_witness :
  Forall pred_unique (stateGrid Samples.config_aaa_1).
Proof.
  apply (predictions_unique (H:=Fragment.engine) Samples.rules_aaa
           Samples.options_max3 Samples.list_aaa "S" Samples.config_aaa_1).
  eapply reachable_step; [apply reachable_initial|reflexivity].
Defined.

(** ** [addRule] and anchoring *)

Lemma equalArrays_terminal_l source a :
  equalArrays [T source] a = true -> a = [T source].
Proof.
  unfold equalArrays. destruct a as [|[name|source'] [|e a]]; simpl; try done.
  destruct (String.eqb_spec source source'); simpl; [by subst|done].
Qed.

Section Simulation.
Context `{RegExpEngine}.
Variables (rules1 rules2 : string -> option (list (list sym))).
Variable options : options.
Variable input : list value.
Variables (X A B : string).

Hypothesis Hrules :
  forall Y, option_Forall2 (Forall2 (rhs_rel X A B Y)) (rules1 Y) (rules2 Y).
Hypothesis Hnames : forall Y, is_Some (rules1 Y) -> name_ok A B Y.
Hypothesis Htest :
  Forall (fun v => regexp_test A v = regexp_test B v) input.

#[local] Abbreviation item_rel := (item_rel X A B).
#[local] Abbreviation grid_rel := (grid_rel X A B).
#[local] Abbreviation pair_rel := (pair_rel X A B).

Lemma getNext_rel s1 s2 :
  item_rel s1 s2 ->
  match getNext s1, getNext s2 with
  | None, None => True
  | Some (NT a), Some (NT b) => a = b
  | Some (T a), Some (T b) => a = b \/ (a = A /\ b = B)
  | _, _ => False
  end.
Proof.
  intros [_ Hpos _ _ [[Heq _]|(_ & Ha & Hb)] _].
  - unfold getNext. rewrite Heq, Hpos.
    destruct (pos s2 <? length (rhs s2)); [|done].
    destruct (rhs s2 !! pos s2) as [[?|?]|]; auto.
  - unfold getNext. rewrite Ha, Hb, Hpos. by destruct (pos s2); simpl; auto.
Qed.

Lemma next_is_rel s1 s2 name :
  item_rel s1 s2 -> name_ok A B name ->
  next_is (getNext s1) name = next_is (getNext s2) name.
Proof.
  intros Hs [Hna Hnb]. pose proof (getNext_rel s1 s2 Hs) as Hn.
  destruct (getNext s1) as [[a|a]|], (getNext s2) as [[b|b]|];
    try done; unfold next_is.
  - by subst.
  - destruct Hn as [->|[-> ->]]; [done|].
    destruct (String.eqb_spec (regexp_to_string A) name);
      destruct (String.eqb_spec (regexp_to_string B) name); congruence.
Qed.

Lemma push_rel k s1 s2 g1 g2 :
  grid_rel g1 g2 -> item_rel s1 s2 ->
  outcome_rel grid_rel (push k s1 g1) (push k s2 g2).
Proof.
  intros Hg Hs. unfold push.
  pose proof (proj1 (Forall2_lookup _ _ _) Hg k) as Hk.
  destruct Hk as [ss1 ss2 Hss|]; simpl; [|done].
  apply Forall2_insert; [done|]. apply Forall2_app; [done|]. by constructor.
Qed.

Lemma complete1_rel i st1 st2 p1 p2 s1 s2 :
  item_rel st1 st2 -> pair_rel p1 p2 -> item_rel s1 s2 ->
  outcome_rel pair_rel (complete1 options i st1 p1 s1)
    (complete1 options i st2 p2 s2).
Proof.
  intros Hst [Hg Hc] Hs. destruct p1 as [g1 c1], p2 as [g2 c2].
  simpl in Hg, Hc; subst c2. unfold complete1.
  rewrite <- (rel_lhs _ _ _ _ _ Hst).
  rewrite <- (next_is_rel s1 s2) by eauto using rel_name.
  destruct (next_is (getNext s1) (lhs st1)); [|done].
  assert (completed_got options st1 = completed_got options st2) as <-.
  { unfold completed_got.
    by rewrite (rel_lhs _ _ _ _ _ Hst), (rel_got _ _ _ _ _ Hst). }
  set (s1' := advance s1 _). set (s2' := advance s2 _).
  assert (item_rel s1' s2') as Hs'.
  { destruct Hs. constructor; simpl; auto. by f_equal. }
  pose proof (push_rel i s1' s2' g1 g2 Hg Hs') as Hp.
  destruct (push i s1' g1) as [g1'| |], (push i s2' g2) as [g2'| |];
    simpl in *; try done.
  by destruct (tick options c1).
Qed.

Lemma forEachM_complete1_rel i st1 st2 o1 o2 :
  item_rel st1 st2 -> Forall2 item_rel o1 o2 ->
  forall p1 p2, pair_rel p1 p2 ->
  outcome_rel pair_rel (forEachM (complete1 options i st1) o1 p1)
    (forEachM (complete1 options i st2) o2 p2).
Proof.
  intros Hst Ho. induction Ho as [|s1 s2 o1 o2 Hs Ho IH]; intros p1 p2 Hp;
    simpl; [done|].
  pose proof (complete1_rel i st1 st2 p1 p2 s1 s2 Hst Hp Hs) as Hc.
  destruct (complete1 options i st1 p1 s1) as [p1'| |],
    (complete1 options i st2 p2 s2) as [p2'| |]; simpl in *; try done.
  by apply IH.
Qed.

Lemma completer_rel i st1 st2 g1 g2 count :
  item_rel st1 st2 -> grid_rel g1 g2 ->
  outcome_rel pair_rel (completer options i st1 g1 count)
    (completer options i st2 g2 count).
Proof.
  intros Hst Hg. unfold completer. rewrite <- (rel_ori _ _ _ _ _ Hst).
  pose proof (proj1 (Forall2_lookup _ _ _) Hg (ori st1)) as Hk.
  destruct Hk as [o1 o2 Ho|]; simpl; [|done].
  by apply forEachM_complete1_rel.
Qed.

Lemma scanner_rel i st1 st2 source1 source2 g1 g2 :
  i < length input -> item_rel st1 st2 -> grid_rel g1 g2 ->
  source1 = source2 \/ (source1 = A /\ source2 = B) ->
  outcome_rel grid_rel (scanner input i st1 source1 g1)
    (scanner input i st2 source2 g2).
Proof.
  intros Hi Hst Hg Hsrc. unfold scanner.
  destruct (lookup_lt_is_Some_2 input i Hi) as [v Hv]. rewrite Hv; simpl.
  assert (regexp_test source1 v = regexp_test source2 v) as <-.
  { destruct Hsrc as [->|[-> ->]]; [done|].
    eapply (Forall_lookup_1 _ _ _ _ Htest Hv). }
  destruct (regexp_test source1 v); [|done].
  apply push_rel; [done|]. destruct Hst. constructor; simpl; auto.
  by f_equal.
Qed.

Lemma already_predicted_rel name r1 r2 s1 s2 :
  item_rel s1 s2 -> rhs_rel X A B name r1 r2 ->
  already_predicted name r1 s1 = already_predicted name r2 s2.
Proof.
  intros [Hl Hp _ _ Hs _] Hr. unfold already_predicted.
  rewrite <- Hl, <- Hp.
  destruct (String.eqb_spec (lhs s1) name) as [E|]; [|done].
  rewrite E in Hs. clear E.
  destruct (pos s1 =? 0); [|by rewrite !andb_false_r].
  rewrite !andb_true_r; simpl.
  destruct Hs as [[<- Hs]|(HX & -> & ->)], Hr as [[<- Hr]|(HX' & -> & ->)];
    try done.
  - destruct (Hs HX') as [-> ->]. done.
  - destruct (Hr HX) as [Ha Hb].
    destruct (equalArrays [T A] r1) eqn:E1.
    { apply equalArrays_terminal_l in E1 as ->.
      by rewrite equalArrays_refl in Ha. }
    destruct (equalArrays [T B] r1) eqn:E2; [|done].
    apply equalArrays_terminal_l in E2 as ->.
    by rewrite equalArrays_refl in Hb.
  - by rewrite !equalArrays_refl.
Qed.

Lemma existsb_rel {T1 T2} (R : T1 -> T2 -> Prop) f1 f2 l1 l2 :
  (forall x y, R x y -> f1 x = f2 y) -> Forall2 R l1 l2 ->
  existsb f1 l1 = existsb f2 l2.
Proof.
  intros Hf Hl. induction Hl as [|x y l1 l2 Hxy _ IH]; simpl; [done|].
  by rewrite (Hf x y Hxy), IH.
Qed.

Lemma predictor_rel i name rhss1 rhss2 :
  name_ok A B name ->
  Forall2 (rhs_rel X A B name) rhss1 rhss2 ->
  forall ss1 ss2, Forall2 item_rel ss1 ss2 ->
  Forall2 item_rel (predictor i name rhss1 ss1) (predictor i name rhss2 ss2).
Proof.
  intros Hname Hr. induction Hr as [|r1 r2 rhss1 rhss2 Hr _ IH];
    intros ss1 ss2 Hss; [done|].
  cbn [predictor fold_left]. apply IH. unfold predict1.
  rewrite (existsb_rel item_rel (already_predicted name r1)
             (already_predicted name r2) ss1 ss2)
    by eauto using already_predicted_rel.
  destruct (existsb _ ss2); [done|].
  apply Forall2_app; [done|]. constructor; [|constructor].
  by constructor.
Qed.

Lemma step_rel c1 c2 :
  config_rel X A B c1 c2 ->
  outcome_rel (option_Forall2 (config_rel X A B))
    (step rules1 options input c1) (step rules2 options input c2).
Proof.
  intros (Hg & Hi & Hj & Hc). unfold step; cbv zeta.
  rewrite <- Hi, <- Hj, <- Hc.
  pose proof (proj1 (Forall2_lookup _ _ _) Hg (cur_i c1)) as Hk.
  destruct Hk as [ss1 ss2 Hss|]; simpl; [|by constructor].
  pose proof (proj1 (Forall2_lookup _ _ _) Hss (cur_j c1)) as Hst.
  destruct Hst as [st1 st2 Hst|]; simpl; [|by repeat constructor].
  pose proof (getNext_rel st1 st2 Hst) as Hn.
  destruct (getNext st1) as [[a|a]|], (getNext st2) as [[b|b]|]; try done.
  - subst b. destruct (Nat.leb_spec (length input) (cur_i c1));
      [by repeat constructor|].
    pose proof (Hrules a) as Hra. pose proof (Hnames a) as Hname.
    destruct Hra as [rhss1 rhss2 Hr|]; simpl; [|done].
    specialize (Hname ltac:(done)).
    destruct (tick options (numIterationsDone c1)); simpl; try done.
    constructor. split; [|done]. simpl.
    apply Forall2_insert; [done|]. by apply predictor_rel.
  - destruct (Nat.leb_spec (length input) (cur_i c1));
      [by repeat constructor|].
    pose proof (scanner_rel (cur_i c1) st1 st2 a b _ _ ltac:(done) Hst Hg Hn)
      as Hs.
    destruct (scanner input (cur_i c1) st1 a (stateGrid c1)),
      (scanner input (cur_i c1) st2 b (stateGrid c2)); simpl in *; try done.
    by repeat constructor.
  - pose proof (completer_rel (cur_i c1) st1 st2 _ _ (numIterationsDone c1)
                  Hst Hg) as Hs.
    destruct (completer options (cur_i c1) st1 (stateGrid c1) _) as [[??]| |],
      (completer options (cur_i c1) st2 (stateGrid c2) _) as [[??]| |];
      simpl in *; try done.
    destruct Hs as [? ?]. by repeat constructor.
Qed.

Lemma run_rel fuel :
  forall c1 c2, config_rel X A B c1 c2 ->
  outcome_rel (config_rel X A B) (run rules1 options input fuel c1)
    (run rules2 options input fuel c2).
Proof.
  induction fuel as [|fuel IH]; intros c1 c2 Hc; simpl; [done|].
  pose proof (step_rel c1 c2 Hc) as Hs.
  destruct (step rules1 options input c1) as [[c1'|]| |],
    (step rules2 options input c2) as [[c2'|]| |];
    simpl in *; try done; inversion Hs; subst; auto.
Qed.

Lemma root_of_rel s1 s2 :
  item_rel s1 s2 -> root_of options s1 = root_of options s2.
Proof.
  intros Hs. pose proof (getNext_rel s1 s2 Hs) as Hn.
  unfold root_of. rewrite (rel_lhs _ _ _ _ _ Hs), (rel_got _ _ _ _ _ Hs).
  by destruct (getNext s1) as [[?|?]|], (getNext s2) as [[?|?]|].
Qed.

Lemma collect_rel g1 g2 :
  grid_rel g1 g2 -> collect options g1 = collect options g2.
Proof.
  intros Hg. unfold collect.
  destruct (Forall2_last _ _ _ Hg) as [ss1 ss2 Hss|]; [|done].
  generalize (@nil value).
  induction Hss as [|s1 s2 ss1 ss2 Hs _ IH]; intros acc; simpl; [done|].
  assert (collect1 options acc s1 = collect1 options acc s2) as ->
    by (unfold collect1; by rewrite (root_of_rel s1 s2 Hs)).
  destruct (collect1 options acc s2); simpl; auto.
Qed.

Lemma parse_loop_rel fuel start :
  name_ok A B start ->
  (grid ← main_loop rules1 options input fuel start; collect options grid)
  = (grid ← main_loop rules2 options input fuel start; collect options grid).
Proof.
  intros [Hsa Hsb]. unfold main_loop.
  assert (config_rel X A B (initial input start) (initial input start)) as Hc.
  { assert (forall s, start <> regexp_to_string s ->
                      equalArrays [NT start] [T s] = false) as Hne.
    { intros s Hs. unfold equalArrays, equalEntries, entry_differs.
      by destruct (String.eqb_spec start (regexp_to_string s)). }
    repeat split; simpl. constructor; [|apply Forall2_replicate; constructor].
    constructor; [|constructor]. constructor; simpl; auto.
    - left. auto.
    - done. }
  pose proof (run_rel fuel _ _ Hc) as Hr.
  destruct (run rules1 options input fuel (initial input start)) as [c1| |],
    (run rules2 options input fuel (initial input start)) as [c2| |];
    simpl in *; try done; [|congruence].
  apply collect_rel, Hr.
Qed.

End Simulation.

Lemma alter_snoc {T1} (f : T1 -> T1) (l : list T1) (x : T1) :
  alter f (length l) (l ++ [x]) = l ++ [f x].
Proof. induction l as [|y l IH]; simpl; [done|]. by f_equal. Qed.

(** The rule table after [addRule( X, re )] for a regular expression:
    one more right-hand side for [X], all others as before. *)
Lemma rules_of_addRule_regexp h g X source Y :
  store_ok h g ->
  (rules g !! X = None -> inherited X = false) ->
  let w := fst (addRule h g X [SeqRegExp source]) in
  fst w = h ++ [[anchor (T source)]]
  /\ rules_of (fst w) (snd w) Y
     = if decide (Y = X)
       then Some (default [] (rules_of h g X) ++ [[anchor (T source)]])
       else rules_of h g Y.
Proof.
  intros Hok Hname. unfold addRule. cbn [forEachS].
  rewrite (addRule1_pushed _ _ _ _ Hname). cbn [fst snd].
  rewrite alter_snoc.
  change (anchor <$> [T source]) with [anchor (T source)].
  split; [done|]. unfold rules_of; cbn [rules].
  assert (Hold : forall name ls, rules g !! name = Some ls ->
            (fun l => default [] ((h ++ [[anchor (T source)]]) !! l)) <$> ls
            = (fun l => default [] (h !! l)) <$> ls).
  { intros name ls Hls. apply list_fmap_ext. intros k l Hl.
    rewrite lookup_app_l; [done|].
    eapply Hok; eauto using list_elem_of_lookup_2. }
  case_decide as HY.
  - subst Y. rewrite lookup_insert_eq, fmap_app.
    cbn [fmap list_fmap]. rewrite list_lookup_middle by done.
    destruct (rules g !! X) as [old|] eqn:E; [|done].
    do 2 f_equal. exact (Hold X old E).
  - rewrite lookup_insert_ne by done.
    destruct (rules g !! Y) as [ls|] eqn:E; [|done].
    f_equal. exact (Hold Y ls E).
Qed.

(** The state after [addRule( X, re )] when [this.rules[X]] is
    inherited: the array has been made, and the grammar is as before. *)
Lemma addRule_regexp_throws h g X source :
  rules g !! X = None -> inherited X = true ->
  fst (addRule h g X [SeqRegExp source]) = (h ++ [[anchor (T source)]], g).
Proof.
  intros Hnone Hname. unfold addRule. cbn [forEachS].
  rewrite (addRule1_throws _ _ _ _ Hnone Hname). cbn [fst].
  by rewrite alter_snoc.
Qed.

Lemma rules_of_snoc h g rhs0 name :
  store_ok h g -> rules_of (h ++ [rhs0]) g name = rules_of h g name.
Proof.
  intros Hok. unfold rules_of. destruct (rules g !! name) as [ls|] eqn:E; [|done].
  f_equal. apply list_fmap_ext. intros k l Hl.
  rewrite lookup_app_l; [done|]. eapply Hok; eauto using list_elem_of_lookup_2.
Qed.




(** The wrapping is textual: for a regular expression with an
    alternation at top level, such as [/a|b/], the stored source [^a|b$]
    anchors each alternative at one end only, and the terminal accepts
    the token [ac]. *)
Example addRule_alternation :
  let w := fst (addRule [] (new_Grammar "S") "S" [SeqRegExp "a|b"]) in
  fst w = [[T "^a|b$"]]
  /\ snd (parse (H:=Fragment.engine) (fst w) (snd w) (InArr [VStr "ac"]) [] 20)
     = Ok [VArr [VStr "S"; VStr "ac"]].
Proof. split; vm_compute; reflexivity. Qed.

(** * Further properties *)

(** ** [sameJSON] *)

Lemma value_rect_nested (P : value -> Prop) :
  P VUndef -> P VNull -> (forall b, P (VBool b)) -> (forall n, P (VNum n)) ->
  P VNegZero -> P VNaN ->
  (forall s, P (VStr s)) -> (forall l, Forall P l -> P (VArr l)) -> P VFlag ->
  forall v, P v.
Proof.
  intros HU HN HB HZ HM HQ HS HA HF. fix IH 1.
  intros [| |b|n| | |s|l|];
    [exact HU | exact HN | apply HB | apply HZ | exact HM | exact HQ
    | apply HS | | exact HF].
  apply HA. revert l. fix IHl 1.
  intros [|x l]; constructor; [apply IH | apply IHl].
Qed.

Lemma has_NaN_positive_zero x : has_NaN (positive_zero x) = has_NaN x.
Proof.
  induction x as [| |b|n| | |s|l IH|] using value_rect_nested; try done.
  simpl. induction IH as [|x l Hx _ IHl]; [done|]. simpl.
  by rewrite Hx, IHl.
Qed.

Lemma sameJSON_true_iff x : forall y,
  sameJSON x y = true
  <-> has_NaN x = false /\ positive_zero x = positive_zero y.
Proof.
  induction x as [| |b|n| | |s|l IH|] using value_rect_nested;
    intros [| |b'|n'| | |s'|l'|]; simpl;
    try (split; [congruence|intros [? ?]; congruence]); try (by split).
  - rewrite Bool.eqb_true_iff. split; [by intros ->|intros [_ [= ->]]; done].
  - rewrite Z.eqb_eq. split; [by intros ->|intros [_ [= ->]]; done].
  - rewrite Z.eqb_eq. split; [by intros ->|intros [_ [= ->]]; done].
  - rewrite Z.eqb_eq. split; [by intros ->|intros [_ [= <-]]; done].
  - rewrite String.eqb_eq. split; [by intros ->|intros [_ [= ->]]; done].
  - revert l'. induction IH as [|x l Hx _ IHl]; intros [|y l']; simpl;
      try (split; [congruence|intros [? ?]; congruence]); try (by split).
    rewrite andb_true_iff, orb_false_iff, Hx, IHl. split.
    + intros [[? ->] [? [= ->]]]. done.
    + intros [[? ?] [= -> ->]]. done.
Qed.

(** X1.  The default comparator holds of two values exactly when the
    first holds no [NaN] and the two are the same value once negative
    zeros are read as zeros.  So it holds of a value and itself exactly
    when the value holds no [NaN]; it is symmetric and transitive. *)
Theorem sameJSON_partial_equivalence :
  (forall x y,
     sameJSON x y = true
     <-> has_NaN x = false /\ positive_zero x = positive_zero y)
  /\ (forall x, sameJSON x x = negb (has_NaN x))
  /\ (forall x y, sameJSON x y = sameJSON y x)
  /\ (forall x y z, sameJSON x y = true -> sameJSON y z = true ->
        sameJSON x z = true).
Proof.
  assert (forall x y, sameJSON x y = true -> sameJSON y x = true) as Hsym.
  { intros x y [Hx E]%sameJSON_true_iff. apply sameJSON_true_iff.
    split; [|done].
    by rewrite <- has_NaN_positive_zero, <- E, has_NaN_positive_zero. }
  split; [apply sameJSON_true_iff|]. split; [|split].
  - intros x. destruct (has_NaN x) eqn:Hx; simpl.
    + destruct (sameJSON x x) eqn:E; [|done].
      apply sameJSON_true_iff in E as [E _]. congruence.
    + by apply sameJSON_true_iff.
  - intros x y. destruct (sameJSON x y) eqn:E1, (sameJSON y x) eqn:E2;
      try done.
    + apply Hsym in E1. congruence.
    + apply Hsym in E2. congruence.
  - intros x y z [Hx E1]%sameJSON_true_iff [_ E2]%sameJSON_true_iff.
    apply sameJSON_true_iff. split; [done|congruence].
Qed.

(** ** The comparator and the returned list *)

Lemma parse_results_from_roots `{RegExpEngine} h g inp opts fuel results :
  snd (parse h g inp opts fuel) = Ok results ->
  exists grid stateSet roots,
    final_grid h g inp opts fuel = Ok grid
    /\ last grid = Some stateSet
    /\ surviving_roots (Object_assign (defaults g) opts) stateSet = Ok roots
    /\ results
       = fold_left (push_new (Object_assign (defaults g) opts)) roots [].
Proof.
  intros E. unfold parse in E; simpl in E.
  destruct (final_grid h g inp opts fuel) as [grid| |]; simpl in E; try done.
  unfold collect in E. destruct (last grid) as [stateSet|] eqn:El; [|done].
  rewrite forEachM_collect in E.
  destruct (surviving_roots _ stateSet) as [roots| |] eqn:Er;
    simpl in E; try done.
  injection E as <-. by exists grid, stateSet, roots.
Qed.

(** X2.  With the default comparator, two trees at different places of
    the list that [parse] returns are different values, also when
    negative zeros are read as zeros, unless they hold [NaN]. *)
Theorem parse_default_comparator_distinct `{RegExpEngine} h g inp opts fuel
    results :
  snd (parse h g inp opts fuel) = Ok results ->
  comparator (Object_assign (defaults g) opts) = sameJSON ->
  forall i j a b,
    i <> j -> results !! i = Some a -> results !! j = Some b ->
    positive_zero a = positive_zero b -> has_NaN a = true.
Proof.
  intros E Hcmp.
  destruct (parse_results_from_roots _ _ _ _ _ _ E)
    as (grid & stateSet & roots & _ & _ & _ & ->).
  destruct (push_new_all (Object_assign (defaults g) opts) roots [])
    as (kept & -> & Hp & _).
  { intros i j a b _ Hi. by rewrite lookup_nil in Hi. }
  simpl in *. rewrite Hcmp in Hp. intros i j a b Hne Hi Hj Hab.
  destruct (has_NaN a) eqn:Ha; [done|]. exfalso.
  destruct (decide (i < j)) as [Hlt|Hge].
  - pose proof (Hp i j a b Hlt Hi Hj) as Hs.
    by rewrite (proj2 (sameJSON_true_iff a b)) in Hs.
  - assert (j < i) as Hlt by lia.
    pose proof (Hp j i b a Hlt Hj Hi) as Hs.
    rewrite (proj2 (sameJSON_true_iff b a)) in Hs; [done|].
    split; [|done].
    by rewrite <- has_NaN_positive_zero, <- Hab, has_NaN_positive_zero.
Qed.

Lemma parse_default_comparator_distinct_witness :
  has_NaN VNaN = true.
Proof.
  apply (parse_default_comparator_distinct (H:=Fragment.engine)
           (fst MoreSamples.grammar_ambiguous_NaN)
           (snd MoreSamples.grammar_ambiguous_NaN) (InArr [VNaN])
           [Set_addCategories false; Set_collapseBranches true] 20
           [VNaN; VNaN] ltac:(vm_compute; reflexivity)
           ltac:(vm_compute; reflexivity) 0 1 VNaN VNaN);
    [lia|reflexivity..].
Defined.

(** The default comparator keeps a tree twice when it holds [NaN]: the
    grammar [S -> A | B], [A -> /NaN/], [B -> /NaN/] on the token [NaN],
    without categories and with collapsed branches, has the tree [NaN]
    by two derivations, and [parse] returns both. *)
Example parse_keeps_NaN_twice :
  snd (parse (H:=Fragment.engine) (fst MoreSamples.grammar_ambiguous_NaN)
         (snd MoreSamples.grammar_ambiguous_NaN) (InArr [VNaN])
         [Set_addCategories false; Set_collapseBranches true] 20)
  = Ok [VNaN; VNaN].
Proof. vm_compute; reflexivity. Qed.

Lemma push_new_keep_all options roots :
  (forall a b, comparator options a b = false) ->
  forall acc, fold_left (push_new options) roots acc = acc ++ roots.
Proof.
  intros Hcmp. induction roots as [|t roots IH]; intros acc; simpl.
  - by rewrite app_nil_r.
  - unfold push_new at 2.
    replace (existsb (fun old => comparator options old t) acc) with false.
    + by rewrite IH, <- app_assoc.
    + symmetry. induction acc as [|a acc IHa]; simpl; [done|].
      by rewrite Hcmp.
Qed.

(** X3.  With a comparator that never holds, [parse] returns every
    candidate tree of the last state set, in order and with its
    duplicates. *)
Theorem parse_keeps_duplicates `{RegExpEngine} h g inp opts fuel results :
  snd (parse h g inp opts fuel) = Ok results ->
  (forall a b, comparator (Object_assign (defaults g) opts) a b = false) ->
  exists grid stateSet,
    final_grid h g inp opts fuel = Ok grid
    /\ last grid = Some stateSet
    /\ surviving_roots (Object_assign (defaults g) opts) stateSet
       = Ok results.
Proof.
  intros E Hcmp.
  destruct (parse_results_from_roots _ _ _ _ _ _ E)
    as (grid & stateSet & roots & Hg & Hl & Hr & ->).
  exists grid, stateSet. by rewrite push_new_keep_all.
Qed.

Lemma parse_keeps_duplicates_witness :
  exists grid stateSet,
    final_grid (H:=Fragment.engine) (fst Samples.grammar_ambiguous)
      (snd Samples.grammar_ambiguous) Samples.tokens_a
      [Set_addCategories false; Set_collapseBranches true;
       Set_comparator (fun _ _ => false)] 20 = Ok grid
    /\ last grid = Some stateSet
    /\ surviving_roots
         (Object_assign (defaults (snd Samples.grammar_ambiguous))
            [Set_addCategories false; Set_collapseBranches true;
             Set_comparator (fun _ _ => false)]) stateSet
       = Ok [VStr "a"; VStr "a"].
Proof.
  apply (parse_keeps_duplicates (H:=Fragment.engine)
           (fst Samples.grammar_ambiguous) (snd Samples.grammar_ambiguous)
           Samples.tokens_a
           [Set_addCategories false; Set_collapseBranches true;
            Set_comparator (fun _ _ => false)] 20).
  - vm_compute; reflexivity.
  - done.
Defined.

(** ** [parse] at the edges *)

(** X4.  On an empty input, the empty array or the empty string, [parse]
    returns the empty array, whatever the grammar and the options: the
    only state set is the last one, where nothing is predicted, so that
    even an undefined start symbol raises no error. *)
Theorem parse_empty_input `{RegExpEngine} h g inp opts fuel :
  inp = InArr [] \/ inp = InStr "" ->
  3 <= fuel ->
  snd (parse h g inp opts fuel) = Ok [].
Proof.
  intros Hinp Hfuel. unfold parse, final_grid; simpl.
  assert (tokenized (Object_assign (defaults g) opts) inp = Ok (Some []))
    as ->.
  { unfold tokenized. destruct Hinp as [->| ->]; [by destruct (tokenizer _)|].
    by destruct (tokenizer _). }
  destruct fuel as [|[|[|fuel]]]; try lia. reflexivity.
Qed.

Lemma parse_empty_input_witness :
  snd (parse (H:=Fragment.engine) (fst Samples.grammar_a)
         (snd Samples.grammar_a) (InStr "")
         [Set_tokenizer (Some Samples.tokenizer_a)] 3) = Ok [].
Proof.
  apply (parse_empty_input (H:=Fragment.engine)); [by right | lia].
Defined.



(** ** More on the tokenizer *)

Section TokenizerMore.
Context `{RegExpEngine}.

Lemma tokenize_pass_grows t input result input' result' :
  tokenize_pass t input result = Ok (input', result') ->
  length result' <= S (length result).
Proof.
  unfold tokenize_pass.
  destruct (first_match (tokenTypes t) input) as [[type m]|];
    [|intros [= _ <-]; lia].
  destruct (tt_formatter type) as [f|text].
  - intros [= _ <-]. destruct (truthy _); rewrite ?length_app; simpl; lia.
  - destruct (expand_template _ _ _ _); simpl; try done.
    intros [= _ <-]. rewrite length_app; simpl; lia.
Qed.

Lemma tokenize_loop_length fuel t :
  forall input result tokens,
  tokenize_loop fuel t input result = Ok (Some tokens) ->
  length tokens <= length result + String.length input.
Proof.
  induction fuel as [|fuel IH]; intros input result tokens; simpl;
    destruct (0 <? String.length input) eqn:E0; try done;
    try (intros [= <-]; lia).
  destruct (tokenize_pass_returns t input result)
    as (input' & result' & Ep & Hle).
  rewrite Ep; simpl.
  destruct (String.length input' =? String.length input) eqn:El; [done|].
  apply Nat.eqb_neq in El. intros E. apply IH in E.
  apply tokenize_pass_grows in Ep. lia.
Qed.

(** X6.  [tokenize] returns the empty array on the empty string, and
    never more tokens than the input has characters. *)
Theorem tokenize_length (t : Tokenizer) (input : string)
    (tokens : list value) :
  tokenize t "" = Ok (Some [])
  /\ (tokenize t input = Ok (Some tokens) ->
      length tokens <= String.length input).
Proof.
  split; [done|]. intros E. by apply tokenize_loop_length in E.
Qed.

Lemma string_app_assoc (a b c : string) : (a +:+ b) +:+ c = a +:+ (b +:+ c).
Proof.
  induction a as [|x a IH]; [done|].
  change (String x ((a +:+ b) +:+ c) = String x (a +:+ (b +:+ c))).
  by f_equal.
Qed.

Lemma string_app_empty_r (a : string) : a +:+ "" = a.
Proof.
  induction a as [|x a IH]; [done|].
  change (String x (a +:+ "") = String x a). by f_equal.
Qed.

Lemma join_empty_snoc l x : join "" (l ++ [x]) = join "" l +:+ x.
Proof.
  induction l as [|y l IH]; [done|]. destruct l as [|z l]; [done|].
  change (join "" ((y :: z :: l) ++ [x]))
    with (y +:+ join "" ((z :: l) ++ [x])).
  rewrite IH.
  change (join "" (y :: z :: l)) with (y +:+ join "" (z :: l)).
  by rewrite string_app_assoc.
Qed.

(** X7.  When every type of the tokenizer has a formatter that returns
    the matched text, and the engine only yields matches that start the
    remaining input, the tokens that [tokenize] returns are non-empty
    strings whose concatenation is the input. *)
Theorem tokenize_roundtrip (t : Tokenizer) (input : string)
    (tokens : list value) :
  Forall (fun type => exists f, tt_formatter type = FFun f
                                /\ forall x m, f x m = VStr x)
    (tokenTypes t) ->
  (forall type rest m, type ∈ tokenTypes t ->
     regexp_exec (regexp type) rest = Some m ->
     rest = m0 m +:+ substr (String.length (m0 m)) rest) ->
  tokenize t input = Ok (Some tokens) ->
  join "" (to_string <$> tokens) = input
  /\ Forall (fun v => exists s, v = VStr s /\ s <> "") tokens.
Proof.
  intros Hfmt Hpre. unfold tokenize.
  assert (Hfirst : forall types rest type m,
            (forall ty, ty ∈ types -> ty ∈ tokenTypes t) ->
            first_match types rest = Some (type, m) ->
            type ∈ tokenTypes t
            /\ regexp_exec (regexp type) rest = Some m).
  { induction types as [|ty types IH]; intros rest type m Hin; [done|].
    simpl. destruct (regexp_exec (regexp ty) rest) as [m'|] eqn:Ee.
    - intros [= <- <-]. split; [|done]. apply Hin. by left.
    - apply IH. intros ty' Hty'. apply Hin. by right. }
  assert (Hloop : forall fuel rest result,
            Forall (fun v => exists s, v = VStr s /\ s <> "") result ->
            tokenize_loop fuel t rest result = Ok (Some tokens) ->
            join "" (to_string <$> tokens)
            = join "" (to_string <$> result) +:+ rest
            /\ Forall (fun v => exists s, v = VStr s /\ s <> "") tokens).
  { induction fuel as [|fuel IH]; intros rest result Hres; simpl;
      destruct (0 <? String.length rest) eqn:E0; try done.
    1,3: intros [= <-]; destruct rest; [|done];
      by rewrite string_app_empty_r.
    - unfold tokenize_pass.
      destruct (first_match (tokenTypes t) rest) as [[type m]|] eqn:Ef; simpl.
      + destruct (Hfirst _ _ _ _ (fun _ Hty => Hty) Ef) as [Hin Hex].
        destruct (proj1 (Forall_forall _ _) Hfmt type Hin) as (f & -> & Hf).
        simpl. rewrite Hf.
        destruct (String.length (substr _ rest) =? String.length rest);
          [done|].
        pose proof (Hpre type rest m Hin Hex) as Hrest.
        unfold truthy. destruct (String.eqb_spec (m0 m) "") as [Hm|Hm]; simpl.
        * intros E. apply IH in E; [|done]. rewrite Hm in Hrest, E.
          simpl in E, Hrest. by rewrite Hrest.
        * intros E. apply IH in E.
          2:{ apply Forall_app; split; [done|]. repeat constructor. eauto. }
          rewrite fmap_app in E.
          change (to_string <$> [VStr (m0 m)]) with [m0 m] in E.
          rewrite join_empty_snoc, string_app_assoc in E.
          by rewrite <- Hrest in E.
      + by rewrite Nat.eqb_refl. }
  intros E. apply Hloop in E; [|constructor]. by simpl in E.
Qed.

(** X8.  A template without [%] is the token itself, for every match
    (the empty template gives the empty string, which is kept); and the
    template [%0] gives the matched text. *)
Theorem template_tokens (t : Tokenizer) (input : string)
    (result : list value) (type : tokenType) (m : rmatch) (text : string) :
  first_match (tokenTypes t) input = Some (type, m) ->
  tt_formatter type = FTemplate text ->
  ((forall c, c ∈ list_ascii_of_string text -> c <> "%"%char) ->
   tokenize_pass t input result
   = Ok (substr (String.length (m0 m)) input, result ++ [VStr text]))
  /\ (text = "%0" ->
      tokenize_pass t input result
      = Ok (substr (String.length (m0 m)) input, result ++ [VStr (m0 m)])).
Proof.
  intros Ef Et. unfold tokenize_pass. rewrite Ef, Et. split.
  - intros Hno.
    assert (find_placeholder (list_ascii_of_string text) = None) as Hnone.
    { induction (list_ascii_of_string text) as [|c l IH]; simpl; [done|].
      rewrite IH by (intros c' Hc'; apply Hno; by right).
      destruct (Ascii.eqb_spec c "%"); [|done].
      exfalso. apply (Hno c); [by left|done]. }
    assert (expand_template (length (list_ascii_of_string text)) m ""
              (list_ascii_of_string text) = Ok text) as ->.
    { destruct (length (list_ascii_of_string text)); simpl; rewrite Hnone;
        by rewrite string_of_list_ascii_of_string. }
    done.
  - intros ->. simpl. by rewrite string_app_empty_r.
Qed.

End TokenizerMore.

Lemma tokenize_length_witness :
  length [VStr "a"; VStr "a"] <= String.length "aa".
Proof.
  apply (proj2 (tokenize_length (H:=Fragment.engine) Samples.tokenizer_a
                  "aa" [VStr "a"; VStr "a"])).
  vm_compute; reflexivity.
Defined.

(** The concrete engine: a pattern that begins with [^] and has no
    alternation at top level only matches at the start of the subject. *)
Lemma fragment_search_bol r i l :
  Fragment.search (Fragment.RSeq (Fragment.RSeq Fragment.REmpty Fragment.RBol) r)
    (S i) l = None.
Proof. revert i; induction l as [|c l IH]; intros i; simpl; [done|apply IH]. Qed.

Lemma substring_substr n s :
  String.substring 0 n s +:+ substr (String.length (String.substring 0 n s)) s
  = s.
Proof.
  revert n; induction s as [|c s IH]; intros [|n]; simpl; try done.
  change (String c (String.substring 0 n s
                    +:+ substr (String.length (String.substring 0 n s)) s)
          = String c s).
  by rewrite IH.
Qed.

Lemma fragment_anchored_prefix source r rest m :
  Fragment.parse_re (list_ascii_of_string source) None Fragment.REmpty []
  = Some (Fragment.RSeq (Fragment.RSeq Fragment.REmpty Fragment.RBol) r) ->
  Fragment.exec source rest = Some m ->
  rest = m0 m +:+ substr (String.length (m0 m)) rest.
Proof.
  intros Hp. unfold Fragment.exec. rewrite Hp.
  destruct (Fragment.search _ 0 (list_ascii_of_string rest))
    as [[b e]|] eqn:Es; [|done].
  intros [= <-]. simpl.
  assert (b = 0) as ->.
  { destruct (list_ascii_of_string rest) as [|c l]; simpl in Es.
    - destruct (Fragment.mt r 0 [] _); [by injection Es as <- _|done].
    - destruct (Fragment.mt r 0 (c :: l) _); [by injection Es as <- _|].
      by rewrite fragment_search_bol in Es. }
  by rewrite substring_substr.
Qed.

Lemma tokenize_roundtrip_witness :
  join "" (to_string <$> [VStr "a"; VStr "a"]) = "aa"
  /\ Forall (fun v => exists s, v = VStr s /\ s <> "") [VStr "a"; VStr "a"].
Proof.
  apply (tokenize_roundtrip (H:=Fragment.engine) Samples.tokenizer_a "aa").
  - repeat constructor. by exists (fun x _ => VStr x).
  - intros type rest m Hin Hex.
    change (type ∈ [ {| regexp := "^(?:a)";
                        tt_formatter := identity_formatter |} ]) in Hin.
    rewrite list_elem_of_singleton in Hin. subst type.
    eapply fragment_anchored_prefix; [|exact Hex]. vm_compute; reflexivity.
  - vm_compute; reflexivity.
Defined.

Lemma template_tokens_witness :
  tokenize_pass (H:=Fragment.engine) MoreSamples.tokenizer_template "ab" []
  = Ok ("b", [VStr "tok"]).
Proof.
  apply (proj1 (template_tokens (H:=Fragment.engine)
                  MoreSamples.tokenizer_template "ab" []
                  {| regexp := "^(?:a)"; tt_formatter := FTemplate "tok" |}
                  {| m0 := "a"; mgroups := [] |} "tok"
                  ltac:(vm_compute; reflexivity) eq_refl)).
  intros c Hc Heq. subst c. apply list_elem_of_In in Hc. simpl in Hc.
  by repeat destruct Hc as [Hc|Hc].
Defined.

(** ** Invariants of the main loop *)

Lemma completer_loop_items options i st origin :
  forall grid count stateSet grid' count',
  grid !! i = Some stateSet ->
  forEachM (complete1 options i st) origin (grid, count) = Ok (grid', count') ->
  grid' = <[i := stateSet
                 ++ ((fun s => advance s (completed_got options st))
                       <$> List.filter
                             (fun s => next_is (getNext s) (lhs st)) origin)]>
            grid.
Proof.
  induction origin as [|s origin IH]; intros grid count stateSet grid' count' Hi;
    simpl.
  - intros [= <- _]. by rewrite app_nil_r, list_insert_id.
  - unfold complete1 at 1.
    destruct (next_is (getNext s) (lhs st)) eqn:En; simpl.
    + erewrite push_lookup by done. simpl.
      destruct (tick options count) as [count1| |]; simpl; try done.
      intros E. eapply IH in E.
      2:{ apply list_lookup_insert_eq. eauto using lookup_lt_Some. }
      by rewrite list_insert_insert_eq, <- app_assoc in E.
    + by apply IH.
Qed.

Section Invariant.
Context `{RegExpEngine}.
Variable rules : string -> option (list (list sym)).
Variable options : options.
Variable input : list value.
Variable start : string.
Variable P : nat -> state -> Prop.

Hypothesis P_initial :
  P 0 {| lhs := ""; rhs := [NT start]; pos := 0; ori := 0; got := [] |}.
Hypothesis P_complete : forall i st s,
  P i st -> getNext st = None -> P (ori st) s ->
  next_is (getNext s) (lhs st) = true ->
  P i (advance s (completed_got options st)).
Hypothesis P_scan : forall i st source token,
  P i st -> getNext st = Some (T source) -> input !! i = Some token ->
  regexp_test source token = true ->
  P (S i) (advance st token).
Hypothesis P_predict : forall i st name rhss rhs0,
  P i st -> getNext st = Some (NT name) -> i < length input ->
  rules name = Some rhss -> rhs0 ∈ rhss ->
  P i {| lhs := name; rhs := rhs0; pos := 0; ori := i; got := [] |}.

Lemma grid_all_insert grid k stateSet news :
  grid_all P grid -> grid !! k = Some stateSet ->
  Forall (P k) news ->
  grid_all P (<[k := stateSet ++ news]> grid).
Proof.
  intros Hg Hk Hn k' ss s Hk' Hs.
  destruct (decide (k = k')) as [<-|Hne].
  - rewrite list_lookup_insert_eq in Hk' by eauto using lookup_lt_Some.
    injection Hk' as <-. apply elem_of_app in Hs as [Hs|Hs]; [by eapply Hg|].
    by eapply (proj1 (Forall_forall _ _) Hn).
  - rewrite list_lookup_insert_ne in Hk' by done. by eapply Hg.
Qed.

Lemma step_grid_all c c' :
  grid_all P (stateGrid c) ->
  step rules options input c = Ok (Some c') ->
  grid_all P (stateGrid c').
Proof.
  intros Hg. unfold step; cbv zeta.
  destruct (stateGrid c !! cur_i c) as [stateSet|] eqn:Ei; [|done].
  destruct (stateSet !! cur_j c) as [st|] eqn:Ej; [|by intros [= <-]].
  assert (P (cur_i c) st) as Hst
    by eauto using list_elem_of_lookup_2.
  destruct (getNext st) as [[name|source]|] eqn:En.
  - destruct (Nat.leb_spec (length input) (cur_i c)); [by intros [= <-]|].
    destruct (rules name) as [rhss|] eqn:Er; [|done].
    destruct (tick options (numIterationsDone c)); simpl; try done.
    intros [= <-]; simpl.
    destruct (predictor_loop (cur_i c) name rhss stateSet)
      as (news & -> & Hnews & _).
    apply grid_all_insert; [done..|].
    eapply Forall_impl; [exact Hnews|]. simpl.
    intros [l r p o g] (? & ? & ? & ? & ? & _); simpl in *; subst.
    by eapply P_predict.
  - destruct (Nat.leb_spec (length input) (cur_i c)) as [|Hlt];
      [by intros [= <-]|].
    unfold scanner.
    destruct (lookup_lt_is_Some_2 input (cur_i c) Hlt) as [token Ht].
    rewrite Ht; simpl.
    destruct (regexp_test source token) eqn:Etest; [|by intros [= <-]].
    unfold push. replace (cur_i c + 1) with (S (cur_i c)) by lia.
    destruct (stateGrid c !! S (cur_i c)) as [next|] eqn:Enext; [|done].
    simpl. intros [= <-]; simpl.
    apply grid_all_insert; [done..|]. repeat constructor.
    by eapply P_scan.
  - unfold completer.
    destruct (stateGrid c !! ori st) as [origin|] eqn:Eo; [|done].
    destruct (forEachM _ _ _) as [[grid' count']| |] eqn:E; try done.
    simpl. intros [= <-]; simpl.
    eapply completer_loop_items in E; [|done]. subst grid'.
    apply grid_all_insert; [done..|].
    apply Forall_forall. intros s' Hs'.
    apply list_elem_of_fmap in Hs' as (s & -> & Hs).
    apply list_elem_of_In, filter_In in Hs as [Hs Hn].
    apply list_elem_of_In in Hs.
    eapply P_complete; eauto.
Qed.

Lemma initial_grid_all : grid_all P (stateGrid (initial input start)).
Proof.
  intros [|k] ss s; simpl.
  - intros [= <-] ->%list_elem_of_singleton. apply P_initial.
  - intros Hk Hs. apply lookup_replicate in Hk as [-> _].
    by apply elem_of_nil in Hs.
Qed.

Lemma reachable_grid_all c :
  reachable rules options input start c -> grid_all P (stateGrid c).
Proof.
  induction 1; [apply initial_grid_all|by eapply step_grid_all; eauto].
Qed.

End Invariant.

Section Shape.
Context `{RegExpEngine}.
Variable rules : string -> option (list (list sym)).
Variable options : options.
Variable input : list value.
Variable start : string.

Lemma getNext_Some s x : getNext s = Some x -> rhs s !! pos s = Some x.
Proof. unfold getNext. by destruct (pos s <? length (rhs s)). Qed.

Lemma next_is_Some s name :
  next_is (getNext s) name = true -> pos s < length (rhs s).
Proof.
  destruct (getNext s) as [x|] eqn:E; [|done]. intros _.
  apply getNext_Some in E. eauto using lookup_lt_Some.
Qed.

Lemma reachable_item_ok c :
  reachable rules options input start c -> grid_all item_ok (stateGrid c).
Proof.
  apply reachable_grid_all; unfold item_ok; simpl.
  - lia.
  - intros i st s (Hst & _) _ (Hs & _ & Hg) Hn%next_is_Some.
    rewrite length_app; simpl. lia.
  - intros i st source token (Hst & _ & Hg) Hn%getNext_Some _ _.
    apply lookup_lt_Some in Hn. rewrite length_app; simpl. lia.
  - intros. lia.
Qed.

Lemma step_length c c' :
  step rules options input c = Ok (Some c') ->
  length (stateGrid c') = length (stateGrid c).
Proof.
  unfold step; cbv zeta.
  destruct (stateGrid c !! cur_i c) as [stateSet|] eqn:Ei; [|done].
  destruct (stateSet !! cur_j c) as [st|]; [|by intros [= <-]].
  destruct (getNext st) as [[name|source]|].
  - destruct (length input <=? cur_i c); [by intros [= <-]|].
    destruct (rules name); [|done].
    destruct (tick options (numIterationsDone c)); simpl; try done.
    intros [= <-]; simpl. apply length_insert.
  - destruct (length input <=? cur_i c); [by intros [= <-]|].
    unfold scanner. destruct (regexp_test _ _); [|by intros [= <-]].
    unfold push. destruct (stateGrid c !! (cur_i c + 1)); [|done].
    simpl. intros [= <-]; simpl. apply length_insert.
  - unfold completer. destruct (stateGrid c !! ori st); [|done].
    destruct (forEachM _ _ _) as [[grid' count']| |] eqn:E; try done.
    simpl. intros [= <-]; simpl.
    eapply completer_loop_items in E; [|done]. subst. apply length_insert.
Qed.

Lemma reachable_length c :
  reachable rules options input start c ->
  length (stateGrid c) = S (length input).
Proof.
  induction 1 as [|c c' _ IH Hs].
  - simpl. by rewrite length_replicate.
  - by rewrite (step_length _ _ Hs).
Qed.

Lemma step_no_TypeError c :
  reachable rules options input start c ->
  step rules options input c <> Throw TypeError.
Proof.
  intros Hc. pose proof (reachable_item_ok c Hc) as Hok.
  pose proof (reachable_length c Hc) as Hlen.
  unfold step; cbv zeta.
  destruct (stateGrid c !! cur_i c) as [stateSet|] eqn:Ei; [|done].
  destruct (stateSet !! cur_j c) as [st|] eqn:Ej; [|done].
  destruct (getNext st) as [[name|source]|].
  - destruct (length input <=? cur_i c); [done|].
    destruct (rules name); [|done].
    by destruct (tick_spec options (numIterationsDone c)) as [[-> _]|[-> _]].
  - destruct (Nat.leb_spec (length input) (cur_i c)); [done|].
    unfold scanner. destruct (regexp_test _ _); [|done]. unfold push.
    destruct (lookup_lt_is_Some_2 (stateGrid c) (cur_i c + 1)) as [? ->];
      [lia|done].
  - unfold completer.
    destruct (Hok _ _ _ Ei (list_elem_of_lookup_2 _ _ _ Ej)) as (Ho & _).
    apply lookup_lt_Some in Ei.
    destruct (lookup_lt_is_Some_2 (stateGrid c) (ori st)) as [origin Eo];
      [lia|].
    rewrite Eo.
    destruct (lookup_lt_is_Some_2 (stateGrid c) (cur_i c) Ei) as [ss Ess].
    pose proof (completer_loop options (cur_i c) st origin (stateGrid c)
                  (numIterationsDone c) ss Ess) as Hl.
    destruct (forEachM _ _ _) as [[grid' count']|e|]; try done.
    destruct Hl as (-> & _). done.
Qed.

Lemma run_no_TypeError fuel :
  forall c, reachable rules options input start c ->
  run rules options input fuel c <> Throw TypeError.
Proof.
  induction fuel as [|fuel IH]; intros c Hc; [done|]. simpl.
  pose proof (step_no_TypeError c Hc) as Hs.
  destruct (step rules options input c) as [[c'|]|e|] eqn:E; simpl;
    [|done| |done].
  - apply IH. by eapply reachable_step.
  - intros [= ->]. by apply Hs.
Qed.

Lemma collect_no_builder grid stateSet :
  expressionBuilder options = None -> last grid = Some stateSet ->
  exists results, collect options grid = Ok results.
Proof.
  intros Hb Hl. unfold collect. rewrite Hl. clear Hl. generalize (@nil value).
  induction stateSet as [|st ss IH]; intros acc; simpl; [eauto|].
  assert (exists acc', collect1 options acc st = Ok acc') as [acc' ->].
  { unfold collect1, root_of. rewrite Hb.
    destruct (String.eqb _ _ && _); simpl; eauto. }
  simpl. apply IH.
Qed.

End Shape.

(** X9.  In the grid at the end of the main loop there is one state
    set per position of the input, and every state of state set [k]
    began at or before [k], has its dot inside its right-hand side and
    has got one entry per symbol before the dot. *)
Theorem final_grid_shape `{RegExpEngine} h g inp opts fuel tokens grid :
  tokenized (Object_assign (defaults g) opts) inp = Ok (Some tokens) ->
  final_grid h g inp opts fuel = Ok grid ->
  length grid = S (length tokens) /\ grid_all item_ok grid.
Proof.
  intros Htok. unfold final_grid, main_loop. rewrite Htok. simpl.
  destruct (run _ _ _ _ _) as [c| |] eqn:E; simpl; try done.
  intros [= <-].
  apply run_reachable with (start := START g) in E; [|constructor].
  split; [by eapply reachable_length|by eapply reachable_item_ok].
Qed.

Lemma final_grid_shape_witness :
  length MoreSamples.grid_aaa = S (length Samples.list_aaa)
  /\ grid_all item_ok MoreSamples.grid_aaa.
Proof.
  apply (final_grid_shape (H:=Fragment.engine) (fst Samples.grammar_aaa)
           (snd Samples.grammar_aaa) Samples.tokens_aaa [] 20
           Samples.list_aaa); [done|].
  vm_compute; reflexivity.
Defined.



(** ** Every returned tree is a parse tree *)

Section Sound.
Context `{RegExpEngine}.
Variable rules : string -> option (list (list sym)).
Variable options : options.
Variable input : list value.
Variable start : string.

Hypothesis rules_empty_name : rules "" = None.
Hypothesis rules_names :
  forall name source, is_Some (rules name) -> name <> regexp_to_string source.

Lemma getNext_None s : getNext s = None -> length (rhs s) <= pos s.
Proof.
  unfold getNext. destruct (Nat.ltb_spec (pos s) (length (rhs s))); [|done].
  intros E. apply lookup_ge_None in E. lia.
Qed.

Lemma production_name name rhs0 source :
  production rules start name rhs0 -> regexp_to_string source <> name.
Proof.
  intros [[-> _]|(rhss & E & _)]; [done|].
  intros Heq. eapply rules_names; [by rewrite E|done].
Qed.

Lemma reachable_item_sound c :
  reachable rules options input start c ->
  grid_all (item_sound rules options input start) (stateGrid c).
Proof.
  apply reachable_grid_all; unfold item_sound; simpl.
  - split; [done|]. split; [by left|]. split; [done|]. constructor.
  - intros i st s (Ost & Pst & _ & Dst) Hnone (Os & Ps & Ts & Ds) Hn.
    apply getNext_None in Hnone. rewrite take_ge in Dst by done.
    destruct (getNext s) as [[name|source]|] eqn:En; unfold next_is in Hn;
      [| |done].
    2:{ apply String.eqb_eq in Hn. by eapply production_name in Hn. }
    apply String.eqb_eq in Hn as ->. apply getNext_Some in En.
    split; [lia|]. split; [done|]. split; [done|].
    rewrite (take_S_r _ _ _ En).
    replace (take (i - ori s) (drop (ori s) input))
      with (take (ori st - ori s) (drop (ori s) input)
            ++ take (i - ori st) (drop (ori st) input)).
    + by eapply parses_nonterminal.
    + replace (drop (ori st) input)
        with (drop (ori st - ori s) (drop (ori s) input))
        by (rewrite drop_drop; f_equal; lia).
      rewrite take_take_drop. f_equal. lia.
  - intros i st source token (Ost & Pst & Tst & Dst) En Ht Htest.
    apply getNext_Some in En.
    split; [lia|]. split; [done|]. split; [done|].
    rewrite (take_S_r _ _ _ En).
    replace (S i - ori st) with (S (i - ori st)) by lia.
    rewrite (take_S_r _ _ token).
    + by apply parses_terminal.
    + rewrite lookup_drop. rewrite <- Ht. f_equal. lia.
  - intros i st name rhss rhs0 _ _ _ Er Hin.
    split; [done|]. split; [right; by exists rhss|]. split.
    + intros ->. congruence.
    + rewrite Nat.sub_diag. constructor.
Qed.

Lemma parses_nil_inv prods tokens entries :
  parses prods options [] tokens entries -> tokens = [] /\ entries = [].
Proof.
  intros Hp. remember [] as syms eqn:Es.
  destruct Hp as [|syms ? ? ? ? _ _|syms ? ? ? ? ? ? _ _ _];
    [done|by destruct syms..].
Qed.

Lemma parses_single prods name tokens entries :
  parses prods options [NT name] tokens entries ->
  exists rhs0 children,
    prods name rhs0 /\ parses prods options rhs0 tokens children
    /\ entries = [subtree options name children].
Proof.
  intros Hp. remember [NT name] as syms eqn:Es.
  destruct Hp as [|syms tokens entries source token Hp _
                  |syms tokens entries name' rhs0 tokens' entries' Hp Hr Hp'].
  - done.
  - apply (app_singleton syms) in Es as [[_ [=]]|[_ [=]]].
  - apply (app_singleton syms) in Es as [[-> [= ->]]|[_ [=]]].
    exists rhs0, entries'.
    by apply parses_nil_inv in Hp as [-> ->].
Qed.

Lemma push_new_elem_of roots : forall acc t,
  t ∈ fold_left (push_new options) roots acc -> t ∈ acc \/ t ∈ roots.
Proof.
  induction roots as [|r roots IH]; intros acc t; simpl; [by left|].
  intros [Ht|Ht]%IH; [|right; by right].
  unfold push_new in Ht. destruct (existsb _ acc); [by left|].
  apply elem_of_app in Ht as [Ht|Ht%list_elem_of_singleton]; [by left|].
  right. subst. by left.
Qed.

Lemma surviving_roots_elem_of stateSet : forall roots t,
  surviving_roots options stateSet = Ok roots -> t ∈ roots ->
  exists st, st ∈ stateSet /\ root_of options st = Ok (Some t).
Proof.
  induction stateSet as [|st ss IH]; intros roots t; simpl.
  - intros [= <-] Ht. by apply elem_of_nil in Ht.
  - destruct (root_of options st) as [x| |] eqn:Ex; simpl; try done.
    destruct (surviving_roots options ss) as [xs| |]; simpl; try done.
    intros [= <-] Ht.
    assert (t ∈ xs -> exists st0, st0 ∈ st :: ss
                                  /\ root_of options st0 = Ok (Some t)) as Hxs.
    { intros Hin. destruct (IH xs t eq_refl Hin) as (st0 & ? & ?).
      exists st0. split; [by right|done]. }
    destruct x as [v|]; [|by apply Hxs].
    apply elem_of_cons in Ht as [->|Ht]; [|by apply Hxs].
    exists st. split; [by left|done].
Qed.

End Sound.

(** X11.  When no [expressionBuilder] is set, the empty name is neither
    the start symbol nor a category with rules, and no category with
    rules is named like the text of a regular expression, every tree
    that [parse] returns is a parse tree of the whole input: the
    subtree, for the start symbol, of the entries of a derivation of all
    the tokens from one of the right-hand sides of the start symbol. *)
Theorem parse_sound `{RegExpEngine} h g inp opts fuel tokens results :
  let options := Object_assign (defaults g) opts in
  tokenized options inp = Ok (Some tokens) ->
  snd (parse h g inp opts fuel) = Ok results ->
  expressionBuilder options = None ->
  rules g !! "" = None ->
  START g <> "" ->
  (forall name source, is_Some (rules g !! name) ->
     name <> regexp_to_string source) ->
  forall t, t ∈ results ->
  exists rhs0 children,
    rule_of (rules_of h g) (START g) rhs0
    /\ parses (production (rules_of h g) (START g)) options rhs0 tokens
         children
    /\ t = subtree options (START g) children.
Proof.
  intros options Htok E Hb Hempty Hstart Hnames t Ht.
  destruct (parse_results_from_roots _ _ _ _ _ _ E)
    as (grid & stateSet & roots & Hg & Hl & Hr & ->).
  fold options in Hr, Ht.
  apply push_new_elem_of in Ht as [Ht|Ht]; [by apply elem_of_nil in Ht|].
  destruct (surviving_roots_elem_of _ _ _ _ Hr Ht) as (st & Hst & Hroot).
  unfold final_grid, main_loop in Hg. fold options in Hg.
  rewrite Htok in Hg. simpl in Hg.
  destruct (run _ _ _ _ _) as [c| |] eqn:Erun; simpl in Hg; try done.
  injection Hg as <-.
  apply run_reachable with (start := START g) in Erun; [|constructor].
  pose proof (reachable_length _ _ _ _ c Erun) as Hlen.
  assert (rules_of h g "" = None) as Hempty'
    by (unfold rules_of; by rewrite Hempty).
  assert (forall name source, is_Some (rules_of h g name) ->
            name <> regexp_to_string source) as Hnames'.
  { intros name source Hn. apply Hnames. unfold rules_of in Hn.
    by destruct (rules g !! name). }
  pose proof (reachable_item_sound _ _ _ _ Hempty' Hnames' c Erun) as Hsound.
  rewrite last_lookup, Hlen in Hl. simpl in Hl.
  destruct (Hsound _ _ _ Hl Hst) as (Ho & Hp & Htop & Hd).
  unfold root_of in Hroot. rewrite Hb in Hroot.
  destruct (String.eqb_spec (lhs st) "") as [Hlhs|]; simpl in Hroot; [|done].
  destruct (getNext st) as [x|] eqn:En; simpl in Hroot; [done|].
  injection Hroot as <-.
  rewrite (Htop Hlhs), Nat.sub_0_r, drop_0 in Hd.
  rewrite (take_ge tokens), (take_ge (rhs st)) in Hd
    by (by apply getNext_None || lia).
  destruct Hp as [[_ Hrhs]|(rhss & Er & _)]; [|congruence].
  rewrite Hrhs in Hd.
  apply parses_single in Hd as (rhs0 & children & Hprod & Hd & ->).
  exists rhs0, children. split; [|done].
  by destruct Hprod as [[? _]|?].
Qed.

Lemma parse_sound_witness :
  exists rhs0 children,
    rule_of (rules_of (fst Samples.grammar_a) (snd Samples.grammar_a)) "S" rhs0
    /\ parses (H:=Fragment.engine)
         (production (rules_of (fst Samples.grammar_a) (snd Samples.grammar_a))
            "S")
         (Object_assign (defaults (snd Samples.grammar_a)) []) rhs0
         [VStr "a"] children
    /\ VArr [VStr "S"; VStr "a"]
       = subtree (Object_assign (defaults (snd Samples.grammar_a)) []) "S"
           children.
Proof.
  apply (parse_sound (H:=Fragment.engine) (fst Samples.grammar_a)
           (snd Samples.grammar_a) Samples.tokens_a [] 10 [VStr "a"]
           [VArr [VStr "S"; VStr "a"]]).
  - reflexivity.
  - vm_compute; reflexivity.
  - reflexivity.
  - vm_compute; reflexivity.
  - discriminate.
  - intros name source Hs Hname.
    assert (rules (snd Samples.grammar_a) = {[ "S" := [0] ]})
      as Hrules by (vm_compute; reflexivity).
    rewrite Hrules in Hs. destruct Hs as [x Hx].
    apply lookup_singleton_Some in Hx as [<- _]. discriminate Hname.
  - by left.
Defined.

(** ** The limit on the number of iterations *)

Lemma forEachM_Ok_impl {A S} (body1 body2 : S -> A -> outcome S) l :
  (forall s x s', body1 s x = Ok s' -> body2 s x = Ok s') ->
  forall s s', forEachM body1 l s = Ok s' -> forEachM body2 l s = Ok s'.
Proof.
  intros Hbody. induction l as [|x l IH]; intros s s'; simpl; [done|].
  destruct (body1 s x) as [s1| |] eqn:E1; simpl; try done.
  rewrite (Hbody _ _ _ E1). simpl. apply IH.
Qed.

Section Limit.
Context `{RegExpEngine}.
Variable rules : string -> option (list (list sym)).
Variables options1 options2 : options.
Variable input : list value.

Hypothesis same_subtrees :
  forall st, completed_got options1 st = completed_got options2 st.
Hypothesis tick_raised : forall count count',
  tick options1 count = Ok count' -> tick options2 count = Ok count'.

Lemma completer_raised i st grid count r :
  completer options1 i st grid count = Ok r ->
  completer options2 i st grid count = Ok r.
Proof.
  unfold completer. destruct (grid !! ori st) as [origin|]; [|done].
  apply forEachM_Ok_impl. intros [grid0 count0] s gc'. unfold complete1.
  rewrite same_subtrees.
  destruct (next_is _ _); [|done].
  destruct (push i _ grid0) as [grid1| |]; simpl; try done.
  destruct (tick options1 count0) as [count1| |] eqn:Et; simpl; try done.
  by rewrite (tick_raised _ _ Et).
Qed.

Lemma step_raised c r :
  step rules options1 input c = Ok r -> step rules options2 input c = Ok r.
Proof.
  unfold step. destruct (stateGrid c !! cur_i c) as [stateSet|]; [|done].
  destruct (stateSet !! cur_j c) as [st|]; [|done].
  destruct (getNext st) as [[name|source]|].
  - destruct (length input <=? cur_i c); [done|].
    destruct (rules name) as [rhss|]; [|done].
    destruct (tick options1 _) as [count1| |] eqn:Et; simpl; try done.
    by rewrite (tick_raised _ _ Et).
  - done.
  - destruct (completer options1 _ _ _ _) as [r1| |] eqn:Ec; simpl; try done.
    by rewrite (completer_raised _ _ _ _ _ Ec).
Qed.

Lemma run_raised fuel : forall c c',
  run rules options1 input fuel c = Ok c' ->
  run rules options2 input fuel c = Ok c'.
Proof.
  induction fuel as [|fuel IH]; intros c c'; simpl; [done|].
  destruct (step rules options1 input c) as [r| |] eqn:Es; simpl; try done.
  rewrite (step_raised _ _ Es). simpl. destruct r as [c1|]; [apply IH|done].
Qed.

End Limit.

(** X12.  A call of [parse] that returns with the limit [maxIterations]
    set to [n] returns the same trees when the limit is switched off (a
    value that is not positive) or, if [n] is positive, raised. *)
Theorem parse_raise_maxIterations `{RegExpEngine} h g inp opts fuel n n'
    results :
  snd (parse h g inp (opts ++ [Set_maxIterations n]) fuel) = Ok results ->
  (n' <= 0 \/ 0 < n <= n')%Z ->
  snd (parse h g inp (opts ++ [Set_maxIterations n']) fuel) = Ok results.
Proof.
  intros E Hn. unfold parse, final_grid, Object_assign in *.
  rewrite fold_left_app in *. cbn [fold_left snd] in *.
  set (o := fold_left assign1 opts (defaults g)) in *.
  set (o1 := assign1 o (Set_maxIterations n)) in *.
  set (o2 := assign1 o (Set_maxIterations n')).
  change (tokenized o2 inp) with (tokenized o1 inp).
  assert (forall tokens c,
            run (rules_of h g) o1 tokens fuel (initial tokens (START g)) = Ok c
            -> run (rules_of h g) o2 tokens fuel (initial tokens (START g))
               = Ok c) as Hrun.
  { intros tokens c. apply run_raised; [done|].
    intros count count'. unfold tick, o1, o2. simpl.
    destruct (Z.gtb_spec count n), (Z.gtb_spec n 0), (Z.gtb_spec count n'),
      (Z.gtb_spec n' 0); simpl; try done; lia. }
  assert (forall grid, collect o2 grid = collect o1 grid) as Hcollect by done.
  clearbody o1 o2.
  destruct (tokenized o1 inp) as [[tokens|]| |]; simpl in *; try done.
  unfold main_loop in *.
  destruct (run _ o1 _ _ _) as [c| |] eqn:Er; simpl in E; try done.
  rewrite (Hrun _ _ Er). simpl. by rewrite Hcollect.
Qed.

Lemma parse_raise_maxIterations_witness :
  snd (parse (H:=Fragment.engine) (fst Samples.grammar_a)
         (snd Samples.grammar_a) Samples.tokens_a
         ([] ++ [Set_maxIterations 1000]) 10)
  = Ok [VArr [VStr "S"; VStr "a"]].
Proof.
  apply (parse_raise_maxIterations (H:=Fragment.engine)
           (fst Samples.grammar_a) (snd Samples.grammar_a) Samples.tokens_a
           [] 10 5 1000).
  - vm_compute; reflexivity.
  - lia.
Defined.

(** ** Adding rules *)

Lemma fmap_anchor_NT (l : list string) : anchor <$> (NT <$> l) = NT <$> l.
Proof. induction l as [|x l IH]; [done|]. simpl. by f_equal. Qed.

Lemma addRule1_fresh h g name sequence :
  is_array sequence = false ->
  (rules g !! name = None -> inherited name = false) ->
  addRule1 name (h, g) sequence
  = ((h ++ [fresh_rhs sequence],
      {| START := START g;
         rules := <[name := default [] (rules g !! name) ++ [length h]]>
                    (rules g);
         defaults := defaults g |}), Ok tt).
Proof.
  intros Hs Hname. rewrite (addRule1_pushed _ _ _ _ Hname).
  destruct sequence as [source|l|text]; [|done|]; rewrite alter_snoc;
    [done|]. by rewrite fmap_anchor_NT.
Qed.

(** X13.  [addRule] with arguments none of which is an array, for a
    category that the grammar has or whose name [Object.prototype] does
    not define: the call returns; the right-hand sides made from the
    arguments are appended, in the order of the arguments, to the
    productions of the category, which exists afterwards if there was an
    argument; the productions of the other categories, the start symbol
    and the default options stay as they were, and every array of the
    grammar is still in the store. *)
Theorem addRule_appends (h : store) (g : Grammar) (categoryName : string)
    (sequences : list sequence) :
  store_ok h g ->
  forallb (fun sequence => negb (is_array sequence)) sequences = true ->
  (rules g !! categoryName = None -> inherited categoryName = false) ->
  let r := addRule h g categoryName sequences in
  let h' := fst (fst r) in
  let g' := snd (fst r) in
  snd r = Ok tt
  /\ default [] (rules_of h' g' categoryName)
     = default [] (rules_of h g categoryName) ++ (fresh_rhs <$> sequences)
  /\ (sequences <> [] -> is_Some (rules_of h' g' categoryName))
  /\ (forall other, other <> categoryName ->
        rules_of h' g' other = rules_of h g other)
  /\ store_ok h' g'
  /\ START g' = START g /\ defaults g' = defaults g.
Proof.
  unfold addRule. revert h g.
  induction sequences as [|sequence sequences IH]; intros h g Hok Hseq Hname.
  - simpl. rewrite app_nil_r. done.
  - simpl in Hseq. apply andb_prop in Hseq as [Hs Hseq].
    apply negb_true_iff in Hs. cbn [forEachS].
    rewrite (addRule1_fresh _ _ _ _ Hs Hname).
    set (g1 := {| START := START g;
                  rules := <[categoryName :=
                               default [] (rules g !! categoryName)
                               ++ [length h]]> (rules g);
                  defaults := defaults g |}).
    set (h1 := h ++ [fresh_rhs sequence]).
    assert (store_ok h1 g1) as Hok1.
    { intros name ls l. unfold g1, h1. cbn [rules].
      rewrite length_app. simpl.
      destruct (decide (name = categoryName)) as [->|Hne].
      - rewrite lookup_insert_eq. intros [= <-] [Hl|Hl]%elem_of_app.
        + destruct (rules g !! categoryName) as [old|] eqn:E;
            [|by apply elem_of_nil in Hl].
          specialize (Hok _ _ _ E Hl). lia.
        + apply list_elem_of_singleton in Hl. lia.
      - rewrite lookup_insert_ne by done. intros E Hl.
        specialize (Hok _ _ _ E Hl). lia. }
    assert (rules g1 !! categoryName = None -> inherited categoryName = false)
      as Hname1.
    { unfold g1. cbn [rules]. by rewrite lookup_insert_eq. }
    assert (rules_of h1 g1 categoryName
            = Some (default [] (rules_of h g categoryName)
                    ++ [fresh_rhs sequence])) as Hcat.
    { unfold rules_of, g1, h1. cbn [rules]. rewrite lookup_insert_eq, fmap_app.
      cbn [fmap list_fmap]. rewrite list_lookup_middle by done.
      destruct (rules g !! categoryName) as [old|] eqn:E; [|done].
      simpl. do 2 f_equal. apply list_fmap_ext. intros k l Hl.
      rewrite lookup_app_l; [done|].
      eapply Hok; eauto using list_elem_of_lookup_2. }
    assert (forall other, other <> categoryName ->
              rules_of h1 g1 other = rules_of h g other) as Hother.
    { intros other Hne. unfold h1.
      rewrite <- (rules_of_snoc h g (fresh_rhs sequence)) by done.
      unfold rules_of, g1. cbn [rules]. by rewrite lookup_insert_ne. }
    destruct (IH h1 g1 Hok1 Hseq Hname1) as (H0 & H1 & H2 & H3 & H4 & H5 & H6).
    split; [exact H0|].
    split; [|split; [|split; [|split; [|split]]]].
    + rewrite H1, Hcat. simpl. by rewrite <- app_assoc.
    + intros _. destruct sequences as [|s1 ss].
      * simpl. by rewrite Hcat.
      * by apply H2.
    + intros other Hne. by rewrite H3, Hother.
    + exact H4.
    + by rewrite H5.
    + by rewrite H6.
Qed.

Lemma addRule_appends_witness :
  let r := addRule [] (new_Grammar "S") "S" [SeqOther "A B"; SeqRegExp "a"] in
  snd r = Ok tt
  /\ default [] (rules_of (fst (fst r)) (snd (fst r)) "S")
     = [[NT "A"; NT "B"]; [T "^a$"]].
Proof.
  pose proof (addRule_appends [] (new_Grammar "S") "S"
                [SeqOther "A B"; SeqRegExp "a"]) as Happ.
  destruct Happ as (H0 & H1 & _).
  - intros name ls l Hl. unfold new_Grammar in Hl. cbn [rules] in Hl.
    by rewrite lookup_empty in Hl.
  - reflexivity.
  - reflexivity.
  - split; [exact H0|exact H1].
Defined.

(** X24.  [addRule] for a category that the grammar does not have and
    whose name [Object.prototype] defines, such as [constructor] or
    [toString]: the call throws a [TypeError] at its first argument and
    the grammar is as before; yet the array of that argument has been
    made, and an array of the caller's has been overwritten in place. *)
Theorem addRule_inherited_name_throws (h : store) (g : Grammar)
    (categoryName : string) (first : sequence) (rest : list sequence) :
  rules g !! categoryName = None ->
  inherited categoryName = true ->
  let r := addRule h g categoryName (first :: rest) in
  snd r = Throw TypeError
  /\ snd (fst r) = g
  /\ (is_array first = false ->
      fst (fst r) = h ++ [fresh_rhs first])
  /\ (forall l arr, first = SeqArray l -> h !! l = Some arr ->
        fst (fst r) = <[l := anchor <$> arr]> h).
Proof.
  intros Hnone Hname. unfold addRule. cbn [forEachS].
  rewrite (addRule1_throws _ _ _ _ Hnone Hname).
  destruct first as [source|l|text]; cbn [fst snd];
    (split; [done|]); (split; [done|]); (split; [|try done]); try done.
  - intros _. by rewrite alter_snoc.
  - intros l' arr [= <-] Hl. apply list_eq. intros k.
    destruct (decide (k = l)) as [->|Hne].
    + rewrite list_lookup_alter_eq, Hl.
      by rewrite list_lookup_insert_eq by eauto using lookup_lt_Some.
    + by rewrite list_lookup_alter_ne, list_lookup_insert_ne.
  - intros _. by rewrite alter_snoc, fmap_anchor_NT.
Qed.

Lemma addRule_inherited_name_throws_witness :
  let r := addRule [[T "p"]] (new_Grammar "S") "constructor" [SeqArray 0] in
  snd r = Throw TypeError
  /\ snd (fst r) = new_Grammar "S"
  /\ fst (fst r) = [[T "^p$"]].
Proof.
  pose proof (addRule_inherited_name_throws [[T "p"]] (new_Grammar "S")
                "constructor" (SeqArray 0) [] (lookup_empty _) eq_refl)
    as (H0 & H1 & _ & H3).
  split; [exact H0|]. split; [exact H1|].
  exact (H3 0 [T "p"] eq_refl eq_refl).
Defined.

(** X25.  [addRule] never makes a category whose name [Object.prototype]
    defines: if the grammar has none before the call, it has none
    after it, however the call ends.  So [this.rules.hasOwnProperty],
    which [parse] calls, is the inherited function in every grammar made
    by the constructor and [addRule]. *)
Theorem addRule_own_names (h : store) (g : Grammar) (categoryName : string)
    (sequences : list sequence) :
  (forall name, is_Some (rules g !! name) -> inherited name = false) ->
  forall name,
    is_Some (rules (snd (fst (addRule h g categoryName sequences))) !! name) ->
    inherited name = false.
Proof.
  unfold addRule. revert h g.
  induction sequences as [|first rest IH]; intros h g Hg; [done|].
  cbn [forEachS].
  destruct (inherited categoryName) eqn:Hname.
  - destruct (rules g !! categoryName) as [old|] eqn:Hold.
    + assert (inherited categoryName = false) as Hfalse
        by (apply Hg; by rewrite Hold).
      congruence.
    + rewrite (addRule1_throws _ _ _ _ Hold Hname).
      by destruct first.
  - rewrite (addRule1_pushed _ _ _ _ (fun _ => Hname)).
    destruct first as [source|l|text]; apply IH; cbn [rules];
      intros name [Hn|[_ Hn]]%lookup_insert_is_Some; subst; auto.
Qed.

Lemma addRule_own_names_witness : inherited "S" = false.
Proof.
  apply (addRule_own_names [] (new_Grammar "S") "S" [SeqRegExp "a"]).
  - intros name Hn. unfold new_Grammar in Hn. cbn [rules] in Hn.
    rewrite lookup_empty in Hn. by destruct Hn.
  - vm_compute. by eexists.
Defined.

(** ** Splitting a rule given as a string *)

Lemma split_from_cons cur c r :
  split_from cur (String c r)
  = if Ascii.eqb c " " then cur :: split_from "" r
    else split_from (cur +:+ String c "") r.
Proof. by destruct c as [[] [] [] [] [] [] [] []]. Qed.

Lemma split_from_not_nil text : forall cur, split_from cur text <> [].
Proof.
  induction text as [|c r IH]; intros cur; [done|].
  rewrite split_from_cons. destruct (Ascii.eqb c " "); [done|apply IH].
Qed.

Lemma join_cons sep x l : l <> [] -> join sep (x :: l) = x +:+ sep +:+ join sep l.
Proof. by destruct l. Qed.

Lemma split_from_join text : forall cur,
  join " " (split_from cur text) = cur +:+ text.
Proof.
  induction text as [|c r IH]; intros cur.
  - simpl. by rewrite string_app_empty_r.
  - rewrite split_from_cons. destruct (Ascii.eqb_spec c " ") as [->|_].
    + rewrite join_cons by apply split_from_not_nil. by rewrite IH.
    + rewrite IH. by rewrite string_app_assoc.
Qed.

Lemma list_ascii_app (a b : string) :
  list_ascii_of_string (a +:+ b)
  = list_ascii_of_string a ++ list_ascii_of_string b.
Proof.
  induction a as [|x a IH]; [done|].
  change (x :: list_ascii_of_string (a +:+ b)
          = x :: (list_ascii_of_string a ++ list_ascii_of_string b)).
  by f_equal.
Qed.

Lemma split_from_pieces text : forall cur,
  " "%char ∉ list_ascii_of_string cur ->
  Forall (fun piece => " "%char ∉ list_ascii_of_string piece)
    (split_from cur text).
Proof.
  induction text as [|c r IH]; intros cur Hcur.
  - by constructor.
  - rewrite split_from_cons. destruct (Ascii.eqb_spec c " ") as [->|Hc].
    + constructor; [done|]. apply IH. simpl. apply not_elem_of_nil.
    + apply IH. rewrite list_ascii_app. simpl.
      intros [Hin|Hin]%elem_of_app; [done|].
      apply list_elem_of_singleton in Hin. by subst.
Qed.

Lemma split_from_length text : forall cur,
  length (split_from cur text)
  = S (length (List.filter (fun c => Ascii.eqb c " ")
                 (list_ascii_of_string text))).
Proof.
  induction text as [|c r IH]; intros cur; [done|].
  rewrite split_from_cons. simpl. destruct (Ascii.eqb c " "); simpl;
    by rewrite IH.
Qed.

(** X14.  The split at spaces that [addRule] applies to a rule given as
    a string: joining the pieces with single spaces gives the string
    back, no piece holds a space, and there is one piece more than there
    are spaces, so that two spaces in a row or a space at either end give
    an empty name. *)
Theorem split_space_roundtrip (text : string) :
  join " " (split_space text) = text
  /\ Forall (fun piece => " "%char ∉ list_ascii_of_string piece)
       (split_space text)
  /\ length (split_space text)
     = S (length (List.filter (fun c => Ascii.eqb c " ")
                    (list_ascii_of_string text))).
Proof.
  unfold split_space. split; [|split].
  - by rewrite split_from_join.
  - apply split_from_pieces. apply not_elem_of_nil.
  - apply split_from_length.
Qed.

(** ** Comparing right-hand sides *)

Lemma entry_differs_false entry1 entry2 :
  (forall name source, entry1 = NT name -> name <> regexp_to_string source) ->
  entry_differs entry1 entry2 = false -> entry1 = entry2.
Proof.
  intros Hname. destruct entry1 as [name1|source1], entry2 as [name2|source2];
    simpl; try done.
  - destruct (String.eqb_spec name1 name2); [by subst|done].
  - destruct (String.eqb_spec name1 (regexp_to_string source2)) as [E|];
      [|done].
    by apply (Hname name1 source2) in E.
  - destruct (String.eqb_spec source1 source2); [by subst|done].
Qed.

(** X15.  On arrays whose names are not the text of a regular expression
    (such as [/a/]), [equalArrays] decides equality: it answers [true]
    exactly when the two arrays have the same entries, names equal as
    strings and regular expressions equal by source. *)
Theorem equalArrays_equality (array1 array2 : list sym) :
  (forall name source, NT name ∈ array1 -> name <> regexp_to_string source) ->
  equalArrays array1 array2 = true <-> array1 = array2.
Proof.
  intros Hnames. split; [|intros <-; apply equalArrays_refl].
  unfold equalArrays.
  destruct (Nat.eqb_spec (length array1) (length array2)) as [Hlen|];
    simpl; [|done].
  revert array2 Hlen Hnames.
  induction array1 as [|entry1 r1 IH]; intros [|entry2 r2] Hlen Hnames;
    simpl in *; try done.
  destruct (entry_differs entry1 entry2) eqn:E; [done|].
  intros Hr. f_equal.
  - apply entry_differs_false; [|done].
    intros name source ->. apply Hnames. by left.
  - apply IH; [lia| |done].
    intros name source Hin. apply Hnames. by right.
Qed.

Lemma equalArrays_equality_witness :
  equalArrays [NT "A"; T "^a$"] [NT "A"; T "^a$"] = true
  <-> [NT "A"; T "^a$"] = [NT "A"; T "^a$"].
Proof.
  apply (equalArrays_equality [NT "A"; T "^a$"] [NT "A"; T "^a$"]).
  intros name source Hin Hname.
  apply elem_of_cons in Hin as [[= ->]|Hin].
  - discriminate Hname.
  - apply list_elem_of_singleton in Hin. discriminate Hin.
Defined.

(** ** When the tokenizer gives up *)

Lemma substr_suffix k s : exists consumed, s = consumed +:+ substr k s.
Proof.
  revert s; induction k as [|k IH]; intros s; [by exists ""|].
  destruct s as [|c s]; [by exists ""|].
  destruct (IH s) as [consumed E]. exists (String c consumed).
  simpl. change (String c s = String c (consumed +:+ substr k s)).
  by f_equal.
Qed.

Lemma tokenize_loop_null `{RegExpEngine} fuel t : forall input result,
  tokenize_loop fuel t input result = Ok None ->
  exists consumed rest,
    input = consumed +:+ rest /\ rest <> ""
    /\ match first_match (tokenTypes t) rest with
       | None => True
       | Some (_, m) => m0 m = ""
       end.
Proof.
  induction fuel as [|fuel IH]; intros input result; simpl;
    destruct (Nat.ltb_spec 0 (String.length input)) as [Hpos|]; try done.
  destruct (tokenize_pass t input result) as [[input' result']| |] eqn:Ep;
    simpl; try done.
  destruct (Nat.eqb_spec (String.length input') (String.length input))
    as [Hlen|_].
  - intros _. exists "", input. split; [done|].
    split; [by destruct input; [simpl in Hpos; lia|]|].
    unfold tokenize_pass in Ep.
    destruct (first_match (tokenTypes t) input) as [[type m]|]; [|done].
    assert (input' = substr (String.length (m0 m)) input) as ->.
    { destruct (tt_formatter type); [by injection Ep as <- _|].
      destruct (expand_template _ _ _ _); simpl in Ep; try done.
      by injection Ep as <- _. }
    rewrite substr_length in Hlen.
    destruct (m0 m); [done|simpl in Hlen; lia].
  - intros (consumed & rest & -> & Hrest)%IH.
    assert (exists before, input = before +:+ consumed +:+ rest)
      as [before ->].
    { unfold tokenize_pass in Ep.
      destruct (first_match (tokenTypes t) input) as [[type m]|].
      - assert (consumed +:+ rest = substr (String.length (m0 m)) input)
          as ->; [|apply substr_suffix].
        destruct (tt_formatter type); [by injection Ep as <- _|].
        destruct (expand_template _ _ _ _); simpl in Ep; try done.
        by injection Ep as <- _.
      - injection Ep as <- _. by exists "". }
    exists (before +:+ consumed), rest. by rewrite string_app_assoc.
Qed.

(** X16.  [tokenize] returns [null] only where it is stuck: at some
    non-empty rest of the input either no token type matches or the
    first type that matches, matches the empty string.  On an input that
    is not empty, a tokenizer without types returns [null]. *)
Theorem tokenize_null `{RegExpEngine} (t : Tokenizer) (input : string) :
  (tokenize t input = Ok None ->
   exists consumed rest,
     input = consumed +:+ rest /\ rest <> ""
     /\ match first_match (tokenTypes t) rest with
        | None => True
        | Some (_, m) => m0 m = ""
        end)
  /\ (input <> "" -> tokenize new_Tokenizer input = Ok None).
Proof.
  split; [apply tokenize_loop_null|].
  intros Hne. unfold tokenize. destruct input as [|c input]; [done|].
  simpl. by rewrite Nat.eqb_refl.
Qed.

Lemma tokenize_null_witness :
  exists consumed rest,
    "ab" = consumed +:+ rest /\ rest <> ""
    /\ match first_match (H:=Fragment.engine)
               (tokenTypes Samples.tokenizer_a) rest with
       | None => True
       | Some (_, m) => m0 m = ""
       end.
Proof.
  apply (proj1 (tokenize_null (H:=Fragment.engine) Samples.tokenizer_a "ab")).
  vm_compute; reflexivity.
Defined.

(** ** Options given to [parse] and options set before *)

Lemma setOption_fold opts : forall g,
  START (fold_left setOption opts g) = START g
  /\ rules (fold_left setOption opts g) = rules g
  /\ defaults (fold_left setOption opts g) = Object_assign (defaults g) opts.
Proof.
  induction opts as [|p opts IH]; intros g; [done|].
  simpl. destruct (IH (setOption g p)) as (-> & -> & ->). done.
Qed.

(** X17.  Options passed to [parse] act as if they had been set with
    [setOption], one after the other, before a call without options: the
    outcome is the same, and so is the grammar afterwards. *)
Theorem parse_options_setOption `{RegExpEngine} h g inp opts fuel :
  parse h g inp opts fuel = parse h (fold_left setOption opts g) inp [] fuel.
Proof.
  destruct (setOption_fold opts g) as (HS & HR & HD).
  unfold parse, final_grid, rules_of. rewrite HS, HR, HD. done.
Qed.

(** ** State sets only grow *)

Section Grow.
Context `{RegExpEngine}.
Variable rules : string -> option (list (list sym)).
Variable options : options.
Variable input : list value.

Lemma insert_extends (grid : list (list state)) i stateSet news :
  grid !! i = Some stateSet ->
  Forall2 prefix grid (<[i := stateSet ++ news]> grid).
Proof.
  intros Hi. apply Forall2_same_length_lookup_2; [by rewrite length_insert|].
  intros k old new Hold. destruct (decide (k = i)) as [->|Hne].
  - rewrite list_lookup_insert_eq by eauto using lookup_lt_Some.
    intros [= <-]. rewrite Hi in Hold. injection Hold as <-.
    by apply prefix_app_r.
  - rewrite list_lookup_insert_ne by done. rewrite Hold. by intros [= <-].
Qed.

Lemma extends_refl (grid : list (list state)) : Forall2 prefix grid grid.
Proof. by apply Forall_Forall2_diag, Forall_forall. Qed.

Lemma extends_trans (g1 g2 g3 : list (list state)) :
  Forall2 prefix g1 g2 -> Forall2 prefix g2 g3 -> Forall2 prefix g1 g3.
Proof.
  intros H12 H23. eapply Forall2_trans; [|done..].
  intros a b c Hab Hbc. by etrans.
Qed.

Lemma step_extends c c' :
  step rules options input c = Ok (Some c') ->
  Forall2 prefix (stateGrid c) (stateGrid c').
Proof.
  unfold step; cbv zeta.
  destruct (stateGrid c !! cur_i c) as [stateSet|] eqn:Ei; [|done].
  destruct (stateSet !! cur_j c) as [st|];
    [|intros [= <-]; apply extends_refl].
  destruct (getNext st) as [[name|source]|].
  - destruct (length input <=? cur_i c);
      [intros [= <-]; apply extends_refl|].
    destruct (rules name) as [rhss|]; [|done].
    destruct (tick options (numIterationsDone c)); simpl; try done.
    intros [= <-]; simpl.
    destruct (predictor_loop (cur_i c) name rhss stateSet) as (news & -> & _).
    by apply insert_extends.
  - destruct (length input <=? cur_i c);
      [intros [= <-]; apply extends_refl|].
    unfold scanner. destruct (regexp_test _ _);
      [|intros [= <-]; apply extends_refl].
    unfold push. destruct (stateGrid c !! (cur_i c + 1)) eqn:En; [|done].
    simpl. intros [= <-]; simpl. by apply insert_extends.
  - unfold completer. destruct (stateGrid c !! ori st); [|done].
    destruct (forEachM _ _ _) as [[grid' count']| |] eqn:E; try done.
    simpl. intros [= <-]; simpl.
    eapply completer_loop_items in E; [|done]. subst.
    by apply insert_extends.
Qed.

End Grow.

(** X18.  The main loop only appends: in the grid it ends with, there
    are as many state sets as in the grid it started from, and each
    state set begins with the states it held at the start, in the same
    order. *)
Theorem run_appends `{RegExpEngine}
    (rules : string -> option (list (list sym))) (options : options)
    (input : list value) (fuel : nat) (c c' : config) :
  run rules options input fuel c = Ok c' ->
  Forall2 prefix (stateGrid c) (stateGrid c').
Proof.
  revert c. induction fuel as [|fuel IH]; intros c; simpl; [done|].
  destruct (step rules options input c) as [[c1|]| |] eqn:Es; simpl;
    try done.
  - intros E. eapply extends_trans; [by eapply step_extends|by apply IH].
  - intros [= <-]. apply extends_refl.
Qed.

Lemma run_appends_witness :
  Forall2 prefix (stateGrid Samples.config_aaa_0)
    [ [Samples.top_state;
       {| lhs := "S"; rhs := [T "^a$"; T "^a$"; T "^a$"]; pos := 0;
          ori := 0; got := [] |}];
      [ {| lhs := "S"; rhs := [T "^a$"; T "^a$"; T "^a$"]; pos := 1;
           ori := 0; got := [VStr "a"] |} ];
      [ {| lhs := "S"; rhs := [T "^a$"; T "^a$"; T "^a$"]; pos := 2;
           ori := 0; got := [VStr "a"; VStr "a"] |} ];
      [ {| lhs := "S"; rhs := [T "^a$"; T "^a$"; T "^a$"]; pos := 3;
           ori := 0; got := [VStr "a"; VStr "a"; VStr "a"] |};
        {| lhs := ""; rhs := [NT "S"]; pos := 1; ori := 0;
           got := [VArr [VStr "S"; VStr "a"; VStr "a"; VStr "a"]] |} ] ].
Proof.
  apply (run_appends (H:=Fragment.engine) Samples.rules_aaa
           (defaults (snd Samples.grammar_aaa)) Samples.list_aaa 20
           Samples.config_aaa_0
           {| stateGrid := _; cur_i := 4; cur_j := 0;
              numIterationsDone := 2 |}).
  vm_compute; reflexivity.
Defined.

(** ** The unknown-nonterminal error *)

Lemma forEachM_throw {A S} (body : S -> A -> outcome S) (Q : error -> Prop) l :
  (forall s x e, body s x = Throw e -> Q e) ->
  forall s e, forEachM body l s = Throw e -> Q e.
Proof.
  intros Hbody. induction l as [|x l IH]; intros s e; simpl; [done|].
  destruct (body s x) as [s1|e1|] eqn:E1; simpl; [apply IH| |done].
  intros [= <-]. by eapply Hbody.
Qed.

Lemma has_undefined_throw args e :
  has_undefined args = Throw e -> e = TypeError.
Proof. destruct args; simpl; try done; by intros [= <-]. Qed.

Lemma recur_throw options builder obj :
  forall e, recur options builder obj = Throw e -> e = TypeError.
Proof.
  induction obj as [| |b|n| | |s|l IH|] using value_rect_nested; intros e;
    try done.
  destruct l as [|first rest]; [done|]. simpl.
  destruct (loose_eq_flag first); [|done].
  apply Forall_cons in IH as [_ IH].
  match goal with
  | |- context [mbind _ (?f rest)] => set (map_recur := f)
  end.
  assert (forall e, map_recur rest = Throw e -> e = TypeError) as Hmap.
  { induction IH as [|x r Hx _ IHr]; intros e'; simpl; [done|].
    destruct (recur options builder x) as [x'|ex|] eqn:Ex; simpl;
      [|intros [= <-]; by apply Hx|done].
    destruct (map_recur r) as [r'|er|]; simpl; [done| |done].
    intros [= <-]. by apply IHr. }
  destruct (map_recur rest) as [args|e1|]; simpl;
    [|intros [= <-]; by apply Hmap|done].
  match goal with
  | |- context [has_undefined ?a] => destruct (has_undefined a) as [u|e2|] eqn:Eu
  end; simpl; [by destruct u| |done].
  intros [= <-]. by eapply has_undefined_throw.
Qed.

Section Unknown.
Context `{RegExpEngine}.
Variable rules : string -> option (list (list sym)).
Variable options : options.
Variable input : list value.
Variable start : string.

Lemma reachable_production c :
  reachable rules options input start c ->
  grid_all (fun _ s => production rules start (lhs s) (rhs s)) (stateGrid c).
Proof.
  apply reachable_grid_all; simpl; try done.
  - by left.
  - intros i st name rhss rhs0 _ _ _ Er Hin. right. by exists rhss.
Qed.

Lemma step_unknown c name :
  reachable rules options input start c ->
  step rules options input c = Throw (UnknownNonterminal name) ->
  rules name = None
  /\ exists cat rhs0, production rules start cat rhs0 /\ NT name ∈ rhs0.
Proof.
  intros Hc. pose proof (reachable_production c Hc) as Hp.
  unfold step; cbv zeta.
  destruct (stateGrid c !! cur_i c) as [stateSet|] eqn:Ei; [|done].
  destruct (stateSet !! cur_j c) as [st|] eqn:Ej; [|done].
  destruct (getNext st) as [[name'|source]|] eqn:En.
  - destruct (length input <=? cur_i c); [done|].
    destruct (rules name') as [rhss|] eqn:Er.
    + by destruct (tick_spec options (numIterationsDone c))
        as [[-> _]|[-> _]].
    + intros [= <-]. split; [done|]. exists (lhs st), (rhs st). split.
      * eapply Hp; eauto using list_elem_of_lookup_2.
      * apply getNext_Some in En. eauto using list_elem_of_lookup_2.
  - destruct (length input <=? cur_i c); [done|].
    unfold scanner. destruct (regexp_test _ _); [|by simpl]. unfold push.
    by destruct (stateGrid c !! (cur_i c + 1)).
  - unfold completer. destruct (stateGrid c !! ori st) as [origin|]; [|done].
    destruct (forEachM _ _ _) as [[grid' count']|e|] eqn:E; simpl;
      [done| |done].
    intros [= ->].
    apply (forEachM_throw _ (fun e => e <> UnknownNonterminal name)) in E;
      [done|].
    intros [grid0 count0] s e. unfold complete1.
    destruct (next_is _ _); [|done]. unfold push.
    destruct (grid0 !! cur_i c); simpl; [|by intros [= <-]].
    by destruct (tick_spec options count0) as [[-> _]|[-> _]]; simpl;
      [|intros [= <-]].
Qed.

Lemma run_unknown fuel name : forall c,
  reachable rules options input start c ->
  run rules options input fuel c = Throw (UnknownNonterminal name) ->
  rules name = None
  /\ exists cat rhs0, production rules start cat rhs0 /\ NT name ∈ rhs0.
Proof.
  induction fuel as [|fuel IH]; intros c Hc; [done|]. simpl.
  destruct (step rules options input c) as [[c'|]|e|] eqn:E; simpl;
    [|done| |done].
  - apply IH. by eapply reachable_step.
  - intros [= ->]. by eapply step_unknown.
Qed.

Lemma collect_throw grid e : collect options grid = Throw e -> e = TypeError.
Proof.
  unfold collect. destruct (last grid) as [stateSet|]; [|by intros [= <-]].
  apply (forEachM_throw _ (fun e => e = TypeError)).
  intros acc st e'. unfold collect1, root_of.
  destruct (String.eqb _ _ && _); [|by simpl].
  destruct (expressionBuilder options) as [builder|]; [|by simpl]. simpl.
  destruct (recur options builder _) as [r|e1|] eqn:Er; simpl;
    [by destruct (truthy r)| |done].
  intros [= <-]. by eapply recur_throw.
Qed.

End Unknown.

(** X19.  When [parse] throws the unknown-nonterminal error for a name,
    that name has no rule in the grammar, and it is the start symbol or
    stands in a right-hand side of a rule of the grammar. *)
Theorem parse_unknown_nonterminal `{RegExpEngine} h g inp opts fuel name :
  snd (parse h g inp opts fuel) = Throw (UnknownNonterminal name) ->
  rules_of h g name = None
  /\ (name = START g
      \/ exists cat rhs0,
           rule_of (rules_of h g) cat rhs0 /\ NT name ∈ rhs0).
Proof.
  unfold parse, final_grid. cbn [snd].
  set (options := Object_assign (defaults g) opts).
  assert (tokenized options inp <> Throw (UnknownNonterminal name)) as Htok.
  { unfold tokenized. destruct (tokenizer options) as [t|], inp as [s|l];
      try done.
    unfold tokenize.
    by destruct (tokenize_loop_returns (String.length s) t s [])
      as [r ->]. }
  destruct (tokenized options inp) as [[tokens|]|e|]; simpl; try done;
    [|intros [= ->]; done].
  unfold main_loop.
  destruct (run _ _ _ _ _) as [c|e|] eqn:Er; simpl;
    [intros E; by apply collect_throw in E| |done].
  intros [= ->].
  apply run_unknown with (start := START g) in Er; [|constructor].
  destruct Er as (Hnone & cat & rhs0 & [[_ ->]|Hrule] & Hin).
  - split; [done|]. left. apply list_elem_of_singleton in Hin. congruence.
  - split; [done|]. right. by exists cat, rhs0.
Qed.

Lemma parse_unknown_nonterminal_witness :
  let w := fst (addRule [] (new_Grammar "S") "S" [SeqOther "A"]) in
  rules_of (fst w) (snd w) "A" = None
  /\ ("A" = START (snd w)
      \/ exists cat rhs0,
           rule_of (rules_of (fst w) (snd w)) cat rhs0 /\ NT "A" ∈ rhs0).
Proof.
  apply (parse_unknown_nonterminal (H:=Fragment.engine)
           (fst (fst (addRule [] (new_Grammar "S") "S" [SeqOther "A"])))
           (snd (fst (addRule [] (new_Grammar "S") "S" [SeqOther "A"])))
           Samples.tokens_a [] 10 "A").
  vm_compute; reflexivity.
Defined.

(** ** The expression builder and [collapseBranches] *)

Lemma recur_returns options builder obj :
  collapseBranches options = false ->
  exists v, recur options builder obj = Ok v.
Proof.
  intros Hc.
  induction obj as [| |b|n| | |s|l IH|] using value_rect_nested; try by eexists.
  destruct l as [|first rest]; [by eexists|]. simpl.
  destruct (loose_eq_flag first); [|by eexists].
  apply Forall_cons in IH as [_ IH].
  match goal with
  | |- context [mbind _ (?f rest)] => set (map_recur := f)
  end.
  assert (exists args, map_recur rest = Ok args) as [args ->].
  { induction IH as [|x r [x' Hx] _ [r' IHr]]; simpl; [by eexists|].
    rewrite Hx. simpl. rewrite IHr. simpl. by eexists. }
  simpl. rewrite Hc, andb_false_r. simpl.
  destruct (existsb _ args); by eexists.
Qed.

Lemma collect_returns options grid stateSet :
  collapseBranches options = false -> last grid = Some stateSet ->
  exists results, collect options grid = Ok results.
Proof.
  intros Hc Hl. unfold collect. rewrite Hl. clear Hl. generalize (@nil value).
  induction stateSet as [|st ss IH]; intros acc; simpl; [eauto|].
  assert (exists acc', collect1 options acc st = Ok acc') as [acc' ->].
  { unfold collect1, root_of.
    destruct (String.eqb _ _ && _); simpl; [|eauto].
    destruct (expressionBuilder options) as [builder|]; simpl; [|eauto].
    destruct (recur_returns options builder (default VUndef (got st !! 0)) Hc)
      as [v ->].
    simpl. destruct (truthy v); eauto. }
  simpl. apply IH.
Qed.



(** X21.  With [collapseBranches] on, the rebuilding of a flagged node
    with a single child calls [indexOf] on the rebuilt child itself: it
    throws a [TypeError] when the builder has made of that child
    anything but an array or a string, [undefined] included. *)
Theorem recur_single_child_TypeError (options : options)
    (builder : value -> value) (child v : value) :
  collapseBranches options = true ->
  recur options builder child = Ok v ->
  match v with VArr _ | VStr _ => False | _ => True end ->
  recur options builder (VArr [VFlag; child]) = Throw TypeError.
Proof.
  intros Hc Hchild Hv. simpl. rewrite Hchild. simpl. rewrite Hc. simpl.
  by destruct v.
Qed.

Lemma recur_single_child_TypeError_witness :
  recur
    (Object_assign (defaults (new_Grammar "S")) [Set_collapseBranches true])
    (fun _ => VNum 0) (VArr [VFlag; VArr [VFlag; VStr "a"]])
  = Throw TypeError.
Proof.
  by apply (recur_single_child_TypeError
              (Object_assign (defaults (new_Grammar "S"))
                 [Set_collapseBranches true])
              (fun _ => VNum 0) (VArr [VFlag; VStr "a"]) (VNum 0)).
Defined.

(** ** A grammar with one terminal rule *)



(** ** Empty right-hand sides *)

Lemma run_fuel_mono `{RegExpEngine} rules options input fuel : forall fuel' c c',
  run rules options input fuel c = Ok c' -> fuel <= fuel' ->
  run rules options input fuel' c = Ok c'.
Proof.
  induction fuel as [|fuel IH]; intros fuel' c c'; simpl; [done|].
  intros E Hle. destruct fuel' as [|fuel']; [lia|]. simpl.
  destruct (step rules options input c) as [[c1|]| |]; simpl in *; try done.
  apply IH; [done|lia].
Qed.

Lemma parse_fuel_mono `{RegExpEngine} h g inp opts fuel fuel' results :
  snd (parse h g inp opts fuel) = Ok results -> fuel <= fuel' ->
  snd (parse h g inp opts fuel') = Ok results.
Proof.
  unfold parse, final_grid, main_loop. cbn [snd].
  destruct (tokenized _ inp) as [[tokens|]| |]; simpl; try done.
  destruct (run _ _ _ fuel _) as [c| |] eqn:Er; simpl; try done.
  intros E Hle. by rewrite (run_fuel_mono _ _ _ _ _ _ _ Er Hle).
Qed.

(** X23.  [parse] misses derivations through an empty right-hand side.
    For the grammar [S -> A A B], [A -> ] (the empty array), [B -> /a/]
    and the one token [a], which the terminal matches, there is a
    derivation of the token from the right-hand side of [S], and [parse]
    returns no tree: the completer advances only the states that are in
    the state set when the empty rule is completed, and the predictor
    does not add that rule a second time. *)
Theorem parse_misses_empty_rule `{RegExpEngine} (fuel : nat) :
  regexp_test "^a$" (VStr "a") = true ->
  30 <= fuel ->
  let h := fst MoreSamples.grammar_nullable in
  let g := snd MoreSamples.grammar_nullable in
  rule_of (rules_of h g) "S" [NT "A"; NT "A"; NT "B"]
  /\ parses (production (rules_of h g) "S") (defaults g)
       [NT "A"; NT "A"; NT "B"] [VStr "a"]
       [subtree (defaults g) "A" []; subtree (defaults g) "A" [];
        subtree (defaults g) "B" [VStr "a"]]
  /\ snd (parse h g (InArr [VStr "a"]) [] fuel) = Ok [].
Proof.
  intros Htest Hfuel h g.
  assert (forall name rhs0, rules_of h g name = Some [rhs0] ->
            production (rules_of h g) "S" name rhs0) as Hprod.
  { intros name rhs0 E. right. exists [rhs0]. split; [done|by left]. }
  assert (rules_of h g "S" = Some [[NT "A"; NT "A"; NT "B"]]) as HS
    by (vm_compute; reflexivity).
  assert (rules_of h g "A" = Some [[]]) as HA by (vm_compute; reflexivity).
  assert (rules_of h g "B" = Some [[T "^a$"]]) as HB
    by (vm_compute; reflexivity).
  split; [|split].
  - exists [[NT "A"; NT "A"; NT "B"]]. split; [done|by left].
  - apply (parses_nonterminal _ _ [NT "A"; NT "A"] []
             [subtree (defaults g) "A" []; subtree (defaults g) "A" []]
             "B" [T "^a$"] [VStr "a"] [VStr "a"]).
    + apply (parses_nonterminal _ _ [NT "A"] []
               [subtree (defaults g) "A" []] "A" [] [] []).
      * apply (parses_nonterminal _ _ [] [] [] "A" [] [] []).
        -- constructor.
        -- by apply Hprod.
        -- constructor.
      * by apply Hprod.
      * constructor.
    + by apply Hprod.
    + by apply (parses_terminal _ _ [] [] [] "^a$" (VStr "a")); [constructor|].
  - apply (parse_fuel_mono _ _ _ _ 30); [|done].
    unfold regexp_test in Htest. revert Htest. vm_compute.
    match goal with
    | |- match ?x with _ => _ end = _ -> _ => by destruct x
    end.
Qed.

Lemma parse_misses_empty_rule_witness :
  snd (parse (H:=Fragment.engine) (fst MoreSamples.grammar_nullable)
         (snd MoreSamples.grammar_nullable) (InArr [VStr "a"]) [] 30)
  = Ok [].
Proof.
  apply (parse_misses_empty_rule (H:=Fragment.engine) 30); [|lia].
  vm_compute; reflexivity.
Defined.
